(** * Autoproof Neuroglancer state generator: a shallow embedding

    The development follows [ng_utils.py] and [generate_ng_state.py].
    External collaborators (the annotation API, numpy, cloudvolume, boto3,
    nglui) are modelled by their documented contracts; the repository's own
    functions are translated statement by statement. *)

From Stdlib Require Import ZArith NArith Lia List Sorted.
From Stdlib.Strings Require Import Byte.
From stdpp Require Import base option list strings pretty gmap.

Open Scope Z_scope.

(** ** Exceptions and the error monad

    Python exceptions are carried by [result]; a [Raise] short-circuits the
    rest of the computation, exactly like an uncaught exception. *)

Inductive exn : Type :=
  | NotFoundError
  | FetchError
  | ValueError.

Inductive result (A : Type) : Type :=
  | Ok (a : A)
  | Raise (e : exn).
Arguments Ok {A} a.
Arguments Raise {A} e.

#[global] Instance result_ret : MRet result := fun A a => Ok a.
#[global] Instance result_bind : MBind result := fun A B f m =>
  match m with
  | Ok a => f a
  | Raise e => Raise e
  end.

(** ** numpy arrays used by the skeleton path *)

Module Numpy.

(** A row of an [N x 3] coordinate array.  A coordinate is modelled by an
    integer: only equality and ordering of coordinates are used, and the
    non-NaN floating-point values form a finite total order. *)
Definition row : Type := Z * Z * Z.

(** Lexicographic comparison of rows, the order [np.unique(axis=0)] sorts by. *)
Definition row_compare (a b : row) : comparison :=
  let '(ax, ay, az) := a in
  let '(bx, by_, bz) := b in
  match ax ?= bx with
  | Eq => match ay ?= by_ with
          | Eq => az ?= bz
          | c => c
          end
  | c => c
  end.

Definition row_eqb (a b : row) : bool :=
  match row_compare a b with Eq => true | _ => false end.

Definition row_lt (a b : row) : Prop := row_compare a b = Lt.

(** [flat.reshape(-1, 3)]: raises [ValueError] unless the size is a multiple
    of three. *)
Fixpoint reshape_rows3 (flat : list Z) : result (list row) :=
  match flat with
  | [] => Ok []
  | x :: y :: z :: rest =>
      match reshape_rows3 rest with
      | Ok rows => Ok ((x, y, z) :: rows)
      | Raise e => Raise e
      end
  | _ => Raise ValueError
  end.

(** [inv.reshape(-1, 2)]: raises [ValueError] unless the size is even. *)
Fixpoint reshape_pairs (flat : list nat) : result (list (nat * nat)) :=
  match flat with
  | [] => Ok []
  | i :: j :: rest =>
      match reshape_pairs rest with
      | Ok ps => Ok ((i, j) :: ps)
      | Raise e => Raise e
      end
  | _ => Raise ValueError
  end.

(** Insertion of a row into a strictly increasing list of rows; a row that
    is already present is dropped. *)
Fixpoint insert_row (p : row) (l : list row) : list row :=
  match l with
  | [] => [p]
  | q :: l' =>
      match row_compare p q with
      | Lt => p :: q :: l'
      | Eq => q :: l'
      | Gt => q :: insert_row p l'
      end
  end.

(** The sorted unique rows of an array. *)
Definition sorted_unique (pts : list row) : list row :=
  foldr insert_row [] pts.

(** Position of the first row equal to [p]. *)
Fixpoint row_index (p : row) (vs : list row) : nat :=
  match vs with
  | [] => O
  | q :: vs' => if row_eqb p q then O else S (row_index p vs')
  end.

(** [np.unique(ar, axis=0, return_inverse=True)]: the sorted unique rows and,
    for every input row, the index of that row in the unique array. *)
Definition unique_axis0 (ar : list row) : list row * list nat :=
  let verts := sorted_unique ar in
  (verts, map (fun p => row_index p verts) ar).

End Numpy.

Import Numpy.

(** ** Skeleton deduplication: the loop body of [fetch_proofread_skeletons] *)

Definition skeleton : Type := list row * list (nat * nat).

(** Lines 49-52 of [ng_utils.py]. *)
Definition dedup_skeleton (raw : list Z) : result skeleton :=
  all_pts ← reshape_rows3 raw;
  let '(verts, inv) := unique_axis0 all_pts in
  edges ← reshape_pairs inv;
  Ok (verts, edges).

(** The same computation from an already reshaped [N x 3] point array. *)
Definition dedup_points (all_pts : list row) : result skeleton :=
  let '(verts, inv) := unique_axis0 all_pts in
  edges ← reshape_pairs inv;
  Ok (verts, edges).

(** Row-major flattening of a point array. *)
Definition flatten_rows (pts : list row) : list Z :=
  flat_map (fun p : row => let '(x, y, z) := p in [x; y; z]) pts.

(** ** Python dictionaries

    A [dict] keeps its keys in insertion order; assigning to a key that is
    already present replaces the value in place. *)

Definition dict (V : Type) : Type := list (N * V).

Fixpoint dict_set {V : Type} (k : N) (v : V) (d : dict V) : dict V :=
  match d with
  | [] => [(k, v)]
  | (k', v') :: d' =>
      if N.eqb k k' then (k', v) :: d' else (k', v') :: dict_set k v d'
  end.

Fixpoint dict_get {V : Type} (k : N) (d : dict V) : option V :=
  match d with
  | [] => None
  | (k', v') :: d' => if N.eqb k k' then Some v' else dict_get k d'
  end.

(** ** Mesh fragments and the precomputed encoding (cloudvolume) *)

Module Cloudvolume.

(** A 32-bit array element, [np.float32] or [np.uint32], seen through its
    bit pattern. *)
Definition word32 : Type := N.

Definition triple : Type := word32 * word32 * word32.

(** [cloudvolume.mesh.Mesh(vertices, faces, segid=...)]. *)
Record Mesh : Type := mkMesh {
  vertices : list triple;
  faces : list triple;
  segid : N
}.

Definition byte_of_N (n : N) : byte :=
  default x00 (Byte.of_N (n mod 256)%N).

(** The four bytes of a 32-bit element, least significant first. *)
Definition le32 (w : word32) : list byte :=
  [byte_of_N w; byte_of_N (w / 256)%N; byte_of_N (w / 65536)%N;
   byte_of_N (w / 16777216)%N].

(** [array.tobytes('C')] of an [n x 3] array of 32-bit elements. *)
Definition tobytes (a : list triple) : list byte :=
  flat_map (fun t : triple => let '(x, y, z) := t in le32 x ++ le32 y ++ le32 z) a.

(** [Mesh.to_precomputed]: the vertex count as a [uint32], the vertex
    array, then the face array, concatenated without any check. *)
Definition to_precomputed (m : Mesh) : list byte :=
  le32 (N.of_nat (length (vertices m))) ++ tobytes (vertices m) ++ tobytes (faces m).

Definition word_of_le32 (b0 b1 b2 b3 : byte) : word32 :=
  (Byte.to_N b0 + 256 * Byte.to_N b1 + 65536 * Byte.to_N b2
   + 16777216 * Byte.to_N b3)%N.

(** Reading a byte buffer as an [n x 3] array of 32-bit elements. *)
Fixpoint frombuffer (bs : list byte) : result (list triple) :=
  match bs with
  | [] => Ok []
  | x0 :: x1 :: x2 :: x3 :: y0 :: y1 :: y2 :: y3 :: z0 :: z1 :: z2 :: z3 :: rest =>
      match frombuffer rest with
      | Ok ts =>
          Ok ((word_of_le32 x0 x1 x2 x3, word_of_le32 y0 y1 y2 y3,
               word_of_le32 z0 z1 z2 z3) :: ts)
      | Raise e => Raise e
      end
  | _ => Raise ValueError
  end.

(** Modelled from the spec: the decoder of the binary fragment is not part
    of the repository's sources; section 4.3 defines it as the exact inverse
    of the layout "vertex count, vertex positions, then face indices".  The
    count is read first, then that many vertices, and what remains is the
    face array. *)
Definition from_precomputed (binary : list byte) (sid : N) : result Mesh :=
  match binary with
  | b0 :: b1 :: b2 :: b3 :: rest =>
      let num_vertices := N.to_nat (word_of_le32 b0 b1 b2 b3) in
      if (length rest <? 12 * num_vertices)%nat then Raise ValueError
      else
        vs ← frombuffer (take (12 * num_vertices) rest);
        fs ← frombuffer (drop (12 * num_vertices) rest);
        Ok (mkMesh vs fs sid)
  | _ => Raise ValueError
  end.

(** The MeshFragment invariant of the data model: every array element fits
    32 bits and the vertex count fits the [uint32] header (the fragment is
    representable), and every face index is below the vertex count. *)
Definition fits32 (t : triple) : Prop :=
  let '(x, y, z) := t in (x < 2 ^ 32 /\ y < 2 ^ 32 /\ z < 2 ^ 32)%N.

Definition face_in_range (n : nat) (t : triple) : bool :=
  let '(i, j, k) := t in
  (N.ltb i (N.of_nat n) && N.ltb j (N.of_nat n) && N.ltb k (N.of_nat n))%bool.

Definition faces_in_range (m : Mesh) : bool :=
  forallb (face_in_range (length (vertices m))) (faces m).

Definition representable (m : Mesh) : Prop :=
  (N.of_nat (length (vertices m)) < 2 ^ 32)%N
  /\ Forall fits32 (vertices m)
  /\ Forall fits32 (faces m).

Definition well_formed (m : Mesh) : Prop :=
  representable m /\ faces_in_range m = true.

End Cloudvolume.

Import Cloudvolume.

(** ** The annotation API (external collaborator)

    [proof.vertices] and [proof.faces] are given as they are after the
    [np.array(..., dtype=np.float32)] and [np.array(..., dtype=np.uint32)]
    conversions of lines 30-31. *)

Record fetched_mesh : Type := mkFetched {
  fm_vertices : list triple;
  fm_faces : list triple
}.

Record API : Type := mkAPI {
  fetch_segment_id_mesh : N -> result fetched_mesh;
  fetch_proofread_mesh : fetched_mesh -> N -> result fetched_mesh;
  fetch_proofread_skeleton : N -> result (list Z)
}.

(** The loop of [fetch_proofread_meshes] (lines 26-34); [out] is the
    dictionary built so far. *)
Fixpoint fetch_meshes_loop (fetcher : API) (segment_ids : list N)
    (out : dict (list byte)) : result (dict (list byte)) :=
  match segment_ids with
  | [] => Ok out
  | sid :: rest =>
      decim ← fetch_segment_id_mesh fetcher sid;
      proof ← fetch_proofread_mesh fetcher decim sid;
      let verts := fm_vertices proof in
      let faces := fm_faces proof in
      let cv_mesh := mkMesh verts faces sid in
      fetch_meshes_loop fetcher rest (dict_set sid (to_precomputed cv_mesh) out)
  end.

Definition fetch_proofread_meshes (fetcher : API) (segment_ids : list N)
    : result (dict (list byte)) :=
  fetch_meshes_loop fetcher segment_ids [].

(** The loop of [fetch_proofread_skeletons] (lines 44-53). *)
Fixpoint fetch_skeletons_loop (fetcher : API) (segment_ids : list N)
    (out : dict skeleton) : result (dict skeleton) :=
  match segment_ids with
  | [] => Ok out
  | sid :: rest =>
      raw ← fetch_proofread_skeleton fetcher sid;
      sk ← dedup_skeleton raw;
      fetch_skeletons_loop fetcher rest (dict_set sid sk out)
  end.

Definition fetch_proofread_skeletons (fetcher : API) (segment_ids : list N)
    : result (dict skeleton) :=
  fetch_skeletons_loop fetcher segment_ids [].

(** ** JSON values and the configuration mapping *)

(** Values of the configuration mapping and of the manifest.  Numbers are
    integers; no property below depends on the value of a number. *)
#[local] Unset Elimination Schemes.
Inductive json : Type :=
  | JNull
  | JBool (b : bool)
  | JNum (n : Z)
  | JStr (s : string)
  | JList (items : list json)
  | JDict (fields : list (string * json)).
#[local] Set Elimination Schemes.

(** [cfg.get(key, default)]. *)
Definition cfg_get (cfg : gmap string json) (key : string) (dflt : json) : json :=
  default dflt (cfg !! key).

(** [d[key]] on a JSON object; [None] when the key is absent or the value
    is not an object. *)
Fixpoint assoc_get (key : string) (fields : list (string * json)) : option json :=
  match fields with
  | [] => None
  | (k, v) :: rest => if String.eqb key k then Some v else assoc_get key rest
  end.

Definition json_field (key : string) (j : json) : option json :=
  match j with
  | JDict fields => assoc_get key fields
  | _ => None
  end.

Definition json_items (j : json) : option (list json) :=
  match j with
  | JList items => Some items
  | _ => None
  end.

Definition is_number (j : json) : bool :=
  match j with
  | JNum _ => true
  | _ => false
  end.

(** A sequence of exactly three numbers. *)
Definition is_numeric_triple (j : json) : bool :=
  match j with
  | JList [a; b; c] => is_number a && is_number b && is_number c
  | _ => false
  end.

(** ** The object store (boto3 S3 client, external collaborator) *)

(** The body of a request: raw bytes, or the UTF-8 text that
    [json.dumps(info, indent=2)] renders for a value. *)
Inductive body : Type :=
  | RawBytes (bs : list byte)
  | JsonText (info : json).

Record put_request : Type := mkPut {
  Bucket : string;
  Key : string;
  Body : body;
  ContentType : string
}.

(** The requests this program's own client has sent to the object store so
    far, oldest first.  What the skeleton manager writes goes through the
    manager's own service and is kept in the manager's state. *)
Definition s3_trace : Type := list put_request.

Definition put_object (req : put_request) (tr : s3_trace) : s3_trace :=
  tr ++ [req].

(** What the store holds after serving a trace from the contents [m0]:
    a put replaces whatever the key held. *)
Definition s3_serve (m0 : gmap (string * string) (body * string))
    (tr : s3_trace) : gmap (string * string) (body * string) :=
  foldl (fun m req => <[(Bucket req, Key req) := (Body req, ContentType req)]> m)
        m0 tr.

(** The key of the mesh fragment of a segment under a prefix (line 77). *)
Definition fragment_key (prefix : string) (sid : N) : string :=
  prefix +:+ "/" +:+ pretty sid +:+ ":0".

(** The loop of [upload_meshes_to_s3] over [fragments.items()]. *)
Fixpoint upload_fragments (bucket prefix : string)
    (items : dict (list byte)) (tr : s3_trace) : s3_trace :=
  match items with
  | [] => tr
  | (sid, frag_bytes) :: rest =>
      let key := fragment_key prefix sid in
      let tr' :=
        put_object (mkPut bucket key (RawBytes frag_bytes)
                          "application/octet-stream") tr in
      upload_fragments bucket prefix rest tr'
  end.

(** [upload_meshes_to_s3] (lines 69-85): the returned URL and the trace. *)
Definition upload_meshes_to_s3 (fragments : dict (list byte))
    (bucket s3_base_path fragment_dir_name : string) (tr : s3_trace)
    : string * s3_trace :=
  let prefix := s3_base_path +:+ "/" +:+ fragment_dir_name in
  let tr' := upload_fragments bucket prefix fragments tr in
  ("s3://" +:+ bucket +:+ "/" +:+ prefix, tr').

(** ** The manifest *)

(** The [info] dictionary of [write_info_file] (lines 108-123). *)
Definition make_info (fragment_dir_name : string) (cfg : gmap string json) : json :=
  JDict [
    ("@type", JStr "neuroglancer_multiscale_volume");
    ("type", JStr "segmentation");
    ("data_type", JStr "uint64");
    ("num_channels", cfg_get cfg "num_channels" (JNum 1));
    ("scales", JList [
       JDict [
         ("encoding", JStr "raw");
         ("chunk_sizes",
            cfg_get cfg "chunk_sizes" (JList [JList [JNum 64; JNum 64; JNum 64]]));
         ("key", JStr "fullres");
         ("resolution", cfg_get cfg "resolution" (JList [JNum 8; JNum 8; JNum 30]));
         ("size", cfg_get cfg "size" (JList [JNum 1; JNum 1; JNum 1]))
       ]
     ]);
    ("mesh", JStr fragment_dir_name)
  ].

(** [write_info_file] (lines 103-132). *)
Definition write_info_file (bucket s3_base_path fragment_dir_name : string)
    (cfg : gmap string json) (tr : s3_trace) : s3_trace :=
  let info := make_info fragment_dir_name cfg in
  let data := JsonText info in
  put_object (mkPut bucket (s3_base_path +:+ "/info") data "application/json") tr.

(** The three sequences of the only scale entry of a manifest. *)
Definition scale0_field (key : string) (info : json) : option json :=
  scales ← json_field "scales" info;
  items ← json_items scales;
  scale0 ← head items;
  json_field key scale0.

Definition scales_length (info : json) : option nat :=
  scales ← json_field "scales" info;
  items ← json_items scales;
  Some (length items).

(** ** The skeleton manager (nglui, external collaborator)

    The manager is a stateful handle: every upload adds the root id to the
    set of segments it knows as uploaded.  The skeleton objects themselves
    are written by the manager's own storage layer under its cloud path;
    they are not requests of this program's client and do not appear in
    [s3_trace]. *)

Record SkeletonManager : Type := mkManager {
  segmentation_source : string;
  cloudpath : string;
  vertex_attributes : list string;
  uploaded : gset N
}.

(** The uploaded root ids as a list, in an order of the manager's own: the
    ids are a set, and only membership in this list means anything. *)
Definition uploaded_root_ids (skmgr : SkeletonManager) : list N :=
  elements (uploaded skmgr).

(** [init_skeleton_manager] (lines 55-67). *)
Definition init_skeleton_manager (seg_source bucket s3_base_path : string)
    : SkeletonManager :=
  let cloudpath := "s3://" +:+ bucket +:+ "/" +:+ s3_base_path +:+ "/skeletons" in
  mkManager seg_source cloudpath ["radius"] ∅.

(** [skmgr.upload_skeleton(root_id=..., ...)]. *)
Definition upload_skeleton (root_id : N) (sk : skeleton) (skmgr : SkeletonManager)
    : SkeletonManager :=
  mkManager (segmentation_source skmgr) (cloudpath skmgr)
            (vertex_attributes skmgr) ({[root_id]} ∪ uploaded skmgr).

(** [skmgr.skeleton_source]: the manager's cloud path as a precomputed
    source, which already carries the [precomputed://] scheme. *)
Definition skeleton_source (skmgr : SkeletonManager) : string :=
  "precomputed://" +:+ cloudpath skmgr.

(** The loop of [upload_skeletons] (lines 92-99). *)
Fixpoint upload_skeletons_loop (items : dict skeleton) (skmgr : SkeletonManager)
    : SkeletonManager :=
  match items with
  | [] => skmgr
  | (sid, sk) :: rest => upload_skeletons_loop rest (upload_skeleton sid sk skmgr)
  end.

Definition upload_skeletons (skeletons : dict skeleton) (skmgr : SkeletonManager)
    : string * SkeletonManager :=
  let skmgr' := upload_skeletons_loop skeletons skmgr in
  (skeleton_source skmgr', skmgr').

(** ** The viewer session (nglui statebuilder, external collaborator) *)

Inductive layer_kind : Type :=
  | ImageLayer
  | SegmentationLayer.

Record layer : Type := mkLayer {
  kind : layer_kind;
  name : string;
  source : list string;
  segments : option (list N)
}.

Record ViewerState : Type := mkViewer {
  dimensions : list Z;
  layers : list layer
}.

Definition add_layer (l : layer) (vs : ViewerState) : ViewerState :=
  mkViewer (dimensions vs) (layers vs ++ [l]).

Definition add_image_layer (src nm : string) (vs : ViewerState) : ViewerState :=
  add_layer (mkLayer ImageLayer nm [src] None) vs.

Definition add_segmentation_layer (src nm : string) (segs : option (list N))
    (vs : ViewerState) : ViewerState :=
  add_layer (mkLayer SegmentationLayer nm [src] segs) vs.

(** [skeleton_manager.to_segmentation_layer(name=..., uploaded_segments=True,
    segments_visible=True, shader=None)]: a segmentation layer over the
    manager's sources, showing the segments it has uploaded. *)
Definition to_segmentation_layer (skmgr : SkeletonManager) (nm : string) : layer :=
  mkLayer SegmentationLayer nm
          [segmentation_source skmgr; skeleton_source skmgr]
          (Some (uploaded_root_ids skmgr)).

(** How an f-string renders a value that may be [None]. *)
Definition format_opt (s : option string) : string :=
  default "None" s.

(** [build_viewer_link] (lines 135-179) up to the call of [to_browser]:
    the session that is handed to the external viewer service. *)
Definition build_viewer_link (image_source seg_source mesh_source : string)
    (skeleton_source : option string) (mesh_layer_name : string)
    (segment_ids : list N) (dims : list Z)
    (skeleton_manager : option SkeletonManager) (skeleton_layer_name : string)
    : ViewerState :=
  let vs := mkViewer dims [] in
  let vs := add_image_layer image_source "EM_image" vs in
  let vs := add_segmentation_layer seg_source "flat_seg" None vs in
  let vs := add_segmentation_layer ("precomputed://" +:+ mesh_source)
              mesh_layer_name (Some segment_ids) vs in
  let vs := add_segmentation_layer
              ("precomputed://" +:+ format_opt skeleton_source)
              "proofread_skeletons_source" (Some segment_ids) vs in
  match skeleton_manager with
  | Some skmgr =>
      let skel_layer := to_segmentation_layer skmgr skeleton_layer_name in
      add_layer skel_layer vs
  | None => vs
  end.

(** ** The run: [main] of [generate_ng_state.py] *)

(** The configuration as [main] reads it: the entries indexed with
    [cfg[...]], the optional entries read with [cfg.get], and the whole
    mapping, which [write_info_file] consults.  The record covers the
    configurations in which the indexed entries are present and an optional
    entry is either absent ([None] here) or holds a value of its type; a
    key that is present with a null value is outside it. *)
Record config : Type := mkConfig {
  segment_ids : list N;
  cfg_bucket : string;
  s3_base_path : string;
  image_layer_source : string;
  segmentation_layer_source : string;
  fragment_dir_name : option string;
  mesh_layer_name : option string;
  viewer_dimensions : option (list Z);
  mapping : gmap string json
}.

(** [main] (lines 15-54): the result of the run and the requests that
    reached the object store.  An exception leaves the function at the
    statement that raised it; nothing in the program catches one.  The
    exceptions followed here are those of the two fetch functions; the
    calls to the object store, the skeleton manager and the viewer service
    are taken to return, so [Ok] stands for "no fetch raised" and the
    properties below are stated about failing fetches and about the
    requests sent, not about a run being sure to finish. *)
Definition main (cfg : config) (fetcher : API) (tr : s3_trace)
    : result ViewerState * s3_trace :=
  match fetch_proofread_meshes fetcher (segment_ids cfg) with
  | Raise e => (Raise e, tr)
  | Ok frags =>
      let dir := default "mesh" (fragment_dir_name cfg) in
      let '(mesh_s3_url, tr) :=
        upload_meshes_to_s3 frags (cfg_bucket cfg) (s3_base_path cfg) dir tr in
      let tr := write_info_file (cfg_bucket cfg) (s3_base_path cfg) dir
                                (mapping cfg) tr in
      let skmgr := init_skeleton_manager (segmentation_layer_source cfg)
                                         (cfg_bucket cfg) (s3_base_path cfg) in
      match fetch_proofread_skeletons fetcher (segment_ids cfg) with
      | Raise e => (Raise e, tr)
      | Ok skeletons =>
          let '(skel_source, skmgr) := upload_skeletons skeletons skmgr in
          let url :=
            build_viewer_link (image_layer_source cfg)
              (segmentation_layer_source cfg) mesh_s3_url (Some skel_source)
              (default "proofread_meshes" (mesh_layer_name cfg))
              (segment_ids cfg)
              (default [8; 8; 30] (viewer_dimensions cfg))
              (Some skmgr) "proofread_skeletons" in
          (Ok url, tr)
      end
  end.

(** The outcome of a run as the caller of [main] observes it. *)
Inductive run_status : Type :=
  | Completed
  | Aborted (e : exn).

Definition status_of {A : Type} (r : result A) : run_status :=
  match r with
  | Ok _ => Completed
  | Raise e => Aborted e
  end.

(** Whether an object is stored under a key after a run that started from
    an empty store. *)
Definition published (tr : s3_trace) (bucket key : string) : bool :=
  bool_decide (is_Some (s3_serve ∅ tr !! (bucket, key))).

(** The object most recently put under a key by a trace, if any. *)
Fixpoint last_put (k : string * string) (tr : s3_trace) : option (body * string) :=
  match tr with
  | [] => None
  | req :: rest =>
      match last_put k rest with
      | Some o => Some o
      | None =>
          if decide ((Bucket req, Key req) = k)
          then Some (Body req, ContentType req)
          else None
      end
  end.

(** The request that publishes one mesh fragment. *)
Definition fragment_put (bucket s3_base_path fragment_dir_name : string)
    (item : N * list byte) : put_request :=
  mkPut bucket
        (s3_base_path +:+ "/" +:+ fragment_dir_name +:+ "/" +:+ pretty item.1 +:+ ":0")
        (RawBytes item.2) "application/octet-stream".

(** The request that publishes the manifest. *)
Definition info_put (bucket s3_base_path fragment_dir_name : string)
    (cfg : gmap string json) : put_request :=
  mkPut bucket (s3_base_path +:+ "/info")
        (JsonText (make_info fragment_dir_name cfg)) "application/json".

(** Fetching the mesh of [sid] raises [e]: one of the two calls of lines
    28-29 does. *)
Definition mesh_fetch_raises (fetcher : API) (sid : N) (e : exn) : Prop :=
  fetch_segment_id_mesh fetcher sid = Raise e
  \/ exists decim,
       fetch_segment_id_mesh fetcher sid = Ok decim
       /\ fetch_proofread_mesh fetcher decim sid = Raise e.

(** Fetching the mesh of [sid] succeeds. *)
Definition mesh_fetch_ok (fetcher : API) (sid : N) : Prop :=
  exists decim proof,
    fetch_segment_id_mesh fetcher sid = Ok decim
    /\ fetch_proofread_mesh fetcher decim sid = Ok proof.

(** An annotation source that knows every segment but [missing], for which
    it raises [NotFoundError]; every other mesh is one triangle. *)
Definition api_missing (missing : N) : API :=
  mkAPI
    (fun sid => if N.eqb sid missing then Raise NotFoundError
                else Ok (mkFetched [] []))
    (fun _ sid => Ok (mkFetched [(0, 0, 0); (1, 0, 0); (0, 1, 0)]%N [(0, 1, 2)]%N))
    (fun sid => Ok [0; 0; 0; 1; 1; 1]).

(** An annotation source whose only mesh has a face that points past its
    single vertex. *)
Definition api_bad_face : API :=
  mkAPI
    (fun sid => Ok (mkFetched [] []))
    (fun _ sid => Ok (mkFetched [(0, 0, 0)]%N [(0, 1, 5)]%N))
    (fun sid => Ok []).

Definition scenario_config : config :=
  mkConfig [10; 20]%N "bucket" "exp1" "precomputed://em" "precomputed://seg"
           None None None ∅.

Definition scenario_config3 : config :=
  mkConfig [10; 20; 30]%N "bucket" "exp1" "precomputed://em" "precomputed://seg"
           None None None ∅.

(** Row-major flattening of an edge array. *)
Definition flatten_pairs (ps : list (nat * nat)) : list nat :=
  flat_map (fun e : nat * nat => [e.1; e.2]) ps.

(** Successive assignments [d[k] = v], in order, to a dictionary. *)
Definition dict_set_all {V : Type} (kvs : list (N * V)) (d : dict V) : dict V :=
  foldl (fun acc kv => dict_set kv.1 kv.2 acc) d kvs.

(** [frag] is the fragment that lines 28-33 compute for [sid]. *)
Definition fetched_fragment (fetcher : API) (sid : N) (frag : list byte) : Prop :=
  exists decim proof,
    fetch_segment_id_mesh fetcher sid = Ok decim
    /\ fetch_proofread_mesh fetcher decim sid = Ok proof
    /\ frag = to_precomputed (mkMesh (fm_vertices proof) (fm_faces proof) sid).

(** [sk] is the skeleton that lines 47-52 compute for [sid]. *)
Definition fetched_skeleton (fetcher : API) (sid : N) (sk : skeleton) : Prop :=
  exists raw,
    fetch_proofread_skeleton fetcher sid = Ok raw /\ dedup_skeleton raw = Ok sk.

(** The requests of a run that got past the mesh fetches: the fragments of
    the dictionary, then the manifest. *)
Definition mesh_requests (cfg : config) (frags : dict (list byte)) : s3_trace :=
  map (fragment_put (cfg_bucket cfg) (s3_base_path cfg)
         (default "mesh" (fragment_dir_name cfg))) frags
  ++ [info_put (cfg_bucket cfg) (s3_base_path cfg)
        (default "mesh" (fragment_dir_name cfg)) (mapping cfg)].

(** An annotation source whose skeletons consist of a single point. *)
Definition api_bad_skeleton : API :=
  mkAPI
    (fun sid => Ok (mkFetched [] []))
    (fun _ sid => Ok (mkFetched [(0, 0, 0)]%N []))
    (fun sid => Ok [0; 0; 0]).

(** * Properties *)

(** ** The order on rows *)

Section RowOrder.

Lemma row_compare_eq (a b : row) : row_compare a b = Eq <-> a = b.
Proof.
  destruct a as [[ax ay] az], b as [[bx by_] bz]; simpl.
  destruct (Z.compare_spec ax bx), (Z.compare_spec ay by_),
    (Z.compare_spec az bz); split; intros Hyp;
    first [discriminate | congruence | inversion Hyp; lia].
Qed.

Lemma row_lt_iff (a b : row) :
  row_lt a b <->
  a.1.1 < b.1.1 \/
  (a.1.1 = b.1.1 /\ (a.1.2 < b.1.2 \/ (a.1.2 = b.1.2 /\ a.2 < b.2))).
Proof.
  destruct a as [[ax ay] az], b as [[bx by_] bz]; unfold row_lt; simpl.
  destruct (Z.compare_spec ax bx), (Z.compare_spec ay by_),
    (Z.compare_spec az bz); split; intros Hyp;
    first [discriminate | reflexivity | lia].
Qed.

Lemma row_compare_gt (a b : row) : row_compare a b = Gt <-> row_lt b a.
Proof.
  rewrite row_lt_iff.
  destruct a as [[ax ay] az], b as [[bx by_] bz]; simpl.
  destruct (Z.compare_spec ax bx), (Z.compare_spec ay by_),
    (Z.compare_spec az bz); split; intros Hyp;
    first [discriminate | reflexivity | lia].
Qed.

Lemma row_lt_trans (a b c : row) : row_lt a b -> row_lt b c -> row_lt a c.
Proof. rewrite !row_lt_iff. lia. Qed.

Lemma row_lt_irrefl (a : row) : ~ row_lt a a.
Proof. rewrite row_lt_iff. lia. Qed.

Lemma row_eqb_eq (a b : row) : row_eqb a b = true <-> a = b.
Proof.
  unfold row_eqb. rewrite <- row_compare_eq.
  destruct (row_compare a b); split; intros H; congruence.
Qed.

End RowOrder.

(** ** Sorted unique rows *)

Section SortedUnique.

Lemma in_insert_row (p q : row) (l : list row) :
  In p (insert_row q l) <-> p = q \/ In p l.
Proof.
  induction l as [|r l IH]; simpl.
  - intuition.
  - destruct (row_compare q r) eqn:E; simpl.
    + apply row_compare_eq in E. subst r. intuition.
    + intuition.
    + rewrite IH. intuition.
Qed.

Lemma insert_row_sorted (q : row) (l : list row) :
  StronglySorted row_lt l -> StronglySorted row_lt (insert_row q l).
Proof.
  induction 1 as [|r l Hs IH Hall]; simpl.
  - repeat constructor.
  - destruct (row_compare q r) eqn:E.
    + constructor; assumption.
    + constructor; [constructor; assumption|].
      constructor; [exact E|].
      eapply Forall_impl; [exact Hall|].
      intros x Hx. eapply row_lt_trans; [exact E | exact Hx].
    + constructor; [exact IH|].
      apply List.Forall_forall. intros x Hx. apply in_insert_row in Hx.
      destruct Hx as [-> | Hx].
      * apply row_compare_gt. exact E.
      * rewrite List.Forall_forall in Hall. apply Hall. exact Hx.
Qed.

Lemma insert_row_length (q : row) (l : list row) :
  (length (insert_row q l) <= S (length l))%nat.
Proof.
  induction l as [|r l IH]; simpl; [lia|].
  destruct (row_compare q r); simpl; lia.
Qed.

Lemma sorted_unique_sorted (pts : list row) :
  StronglySorted row_lt (sorted_unique pts).
Proof.
  induction pts as [|p pts IH]; simpl.
  - constructor.
  - apply insert_row_sorted, IH.
Qed.

Lemma in_sorted_unique (p : row) (pts : list row) :
  In p (sorted_unique pts) <-> In p pts.
Proof.
  induction pts as [|q pts IH]; simpl; [tauto|].
  rewrite in_insert_row, IH. intuition.
Qed.

Lemma sorted_unique_length (pts : list row) :
  (length (sorted_unique pts) <= length pts)%nat.
Proof.
  induction pts as [|q pts IH]; simpl; [lia|].
  pose proof (insert_row_length q (sorted_unique pts)). lia.
Qed.

Lemma sorted_NoDup (l : list row) : StronglySorted row_lt l -> NoDup l.
Proof.
  induction 1 as [|r l Hs IH Hall]; constructor; [|exact IH].
  intros Hin. apply list_elem_of_In in Hin.
  rewrite List.Forall_forall in Hall.
  exact (row_lt_irrefl r (Hall r Hin)).
Qed.

(** A strictly increasing list is determined by its set of elements. *)
Lemma sorted_ext (l1 l2 : list row) :
  StronglySorted row_lt l1 -> StronglySorted row_lt l2 ->
  (forall p, In p l1 <-> In p l2) -> l1 = l2.
Proof.
  intros H1. revert l2.
  induction H1 as [|a l1 Hs1 IH Ha]; intros l2 H2 Hext.
  - destruct l2 as [|b l2]; [reflexivity|].
    exfalso. apply (Hext b). left. reflexivity.
  - destruct H2 as [|b l2 Hs2 Hb].
    + exfalso. apply (Hext a). left. reflexivity.
    + rewrite List.Forall_forall in Ha, Hb.
      assert (a = b) as <-.
      { destruct (proj1 (Hext a) (or_introl eq_refl)) as [E | Hin]; [congruence|].
        destruct (proj2 (Hext b) (or_introl eq_refl)) as [E | Hin']; [congruence|].
        exfalso. apply (row_lt_irrefl a).
        eapply row_lt_trans; [apply Ha, Hin' | apply Hb, Hin]. }
      f_equal. apply IH; [exact Hs2|].
      intros p; split; intros Hp.
      * destruct (proj1 (Hext p) (or_intror Hp)) as [E | Hin]; [|exact Hin].
        subst p. exfalso. exact (row_lt_irrefl a (Ha a Hp)).
      * destruct (proj2 (Hext p) (or_intror Hp)) as [E | Hin]; [|exact Hin].
        subst p. exfalso. exact (row_lt_irrefl a (Hb a Hp)).
Qed.

Lemma row_index_spec (p : row) (vs : list row) :
  In p vs -> vs !! row_index p vs = Some p.
Proof.
  induction vs as [|q vs IH]; simpl; [tauto|].
  intros Hin. destruct (row_eqb p q) eqn:E.
  - apply row_eqb_eq in E. subst q. reflexivity.
  - simpl. apply IH. destruct Hin as [-> | Hin]; [|exact Hin].
    assert (row_eqb p p = true) by (apply row_eqb_eq; reflexivity). congruence.
Qed.

Lemma row_index_lt (p : row) (vs : list row) :
  In p vs -> (row_index p vs < length vs)%nat.
Proof.
  intros Hin. eapply lookup_lt_Some. apply row_index_spec, Hin.
Qed.

End SortedUnique.

(** ** Reshaping *)

Section Reshape.

Lemma flatten_rows_length (pts : list row) :
  length (flatten_rows pts) = (3 * length pts)%nat.
Proof.
  induction pts as [|[[x y] z] pts IH]; [reflexivity|].
  change (flatten_rows ((x, y, z) :: pts)) with (x :: y :: z :: flatten_rows pts).
  simpl length. rewrite IH. lia.
Qed.

Lemma flatten_pairs_length (ps : list (nat * nat)) :
  length (flatten_pairs ps) = (2 * length ps)%nat.
Proof.
  induction ps as [|[i j] ps IH]; [reflexivity|].
  change (flatten_pairs ((i, j) :: ps)) with (i :: j :: flatten_pairs ps).
  simpl length. rewrite IH. lia.
Qed.

Lemma reshape_rows3_flatten (pts : list row) :
  reshape_rows3 (flatten_rows pts) = Ok pts.
Proof.
  induction pts as [|[[x y] z] pts IH]; [reflexivity|].
  change (flatten_rows ((x, y, z) :: pts)) with (x :: y :: z :: flatten_rows pts).
  simpl. rewrite IH. reflexivity.
Qed.

Lemma reshape_rows3_inv (pts : list row) (flat : list Z) :
  reshape_rows3 flat = Ok pts -> flat = flatten_rows pts.
Proof.
  revert flat. induction pts as [|p pts IH]; intros flat Hr.
  - destruct flat as [|x [|y [|z rest]]]; simpl in Hr; try discriminate.
    + reflexivity.
    + destruct (reshape_rows3 rest); discriminate.
  - destruct flat as [|x [|y [|z rest]]]; simpl in Hr; try discriminate.
    destruct (reshape_rows3 rest) as [rows|] eqn:E; [|discriminate].
    inversion Hr; subst. simpl. rewrite (IH rest E). reflexivity.
Qed.

Lemma reshape_rows3_total (n : nat) (flat : list Z) :
  length flat = (3 * n)%nat ->
  exists pts, reshape_rows3 flat = Ok pts /\ length pts = n.
Proof.
  revert flat. induction n as [|n IH]; intros flat Hlen.
  - destruct flat; [|discriminate]. exists []. split; reflexivity.
  - destruct flat as [|x [|y [|z rest]]]; simpl in Hlen; try lia.
    destruct (IH rest) as (pts & Hpts & Hn); [lia|].
    exists ((x, y, z) :: pts). simpl. rewrite Hpts, Hn. split; reflexivity.
Qed.

Lemma reshape_pairs_inv (ps : list (nat * nat)) (flat : list nat) :
  reshape_pairs flat = Ok ps -> flat = flatten_pairs ps.
Proof.
  revert flat. induction ps as [|p ps IH]; intros flat Hr.
  - destruct flat as [|i [|j rest]]; simpl in Hr; try discriminate.
    + reflexivity.
    + destruct (reshape_pairs rest); discriminate.
  - destruct flat as [|i [|j rest]]; simpl in Hr; try discriminate.
    destruct (reshape_pairs rest) as [qs|] eqn:E; [|discriminate].
    inversion Hr; subst. simpl. rewrite (IH rest E). reflexivity.
Qed.

Lemma reshape_pairs_total (n : nat) (flat : list nat) :
  length flat = (2 * n)%nat ->
  exists ps, reshape_pairs flat = Ok ps /\ length ps = n.
Proof.
  revert flat. induction n as [|n IH]; intros flat Hlen.
  - destruct flat; [|discriminate]. exists []. split; reflexivity.
  - destruct flat as [|i [|j rest]]; simpl in Hlen; try lia.
    destruct (IH rest) as (ps & Hps & Hn); [lia|].
    exists ((i, j) :: ps). simpl. rewrite Hps, Hn. split; reflexivity.
Qed.

Lemma flatten_pairs_lookup (ps : list (nat * nat)) (e : nat) :
  flatten_pairs ps !! (2 * e)%nat = fst <$> ps !! e
  /\ flatten_pairs ps !! (2 * e + 1)%nat = snd <$> ps !! e.
Proof.
  revert e. induction ps as [|[i j] ps IH]; intros e.
  - split; reflexivity.
  - destruct e as [|e].
    + split; reflexivity.
    + replace (2 * S e)%nat with (S (S (2 * e))) by lia.
      replace (S (S (2 * e)) + 1)%nat with (S (S (2 * e + 1))) by lia.
      simpl. apply IH.
Qed.

Lemma in_flatten_pairs (ps : list (nat * nat)) (i j : nat) :
  In (i, j) ps -> In i (flatten_pairs ps) /\ In j (flatten_pairs ps).
Proof.
  induction ps as [|[a b] ps IH]; simpl; [tauto|].
  intros [E | Hin].
  - inversion E; subst. tauto.
  - destruct (IH Hin). tauto.
Qed.

End Reshape.

(** ** Skeleton deduplication *)

Section Dedup.

Lemma dedup_skeleton_flatten (pts : list row) :
  dedup_skeleton (flatten_rows pts) = dedup_points pts.
Proof.
  unfold dedup_skeleton, dedup_points.
  rewrite reshape_rows3_flatten. reflexivity.
Qed.

Lemma dedup_skeleton_points (raw : list Z) (sk : skeleton) :
  dedup_skeleton raw = Ok sk ->
  exists pts, raw = flatten_rows pts /\ dedup_points pts = Ok sk.
Proof.
  unfold dedup_skeleton. intros H.
  destruct (reshape_rows3 raw) as [pts|] eqn:E; [|discriminate].
  exists pts. split; [apply reshape_rows3_inv, E | exact H].
Qed.

Lemma dedup_points_inv (pts : list row) (verts : list row)
    (edges : list (nat * nat)) :
  dedup_points pts = Ok (verts, edges) ->
  verts = sorted_unique pts
  /\ map (fun p => row_index p verts) pts = flatten_pairs edges.
Proof.
  unfold dedup_points, unique_axis0. intros H.
  destruct (reshape_pairs _) as [ps|] eqn:E; [|discriminate].
  simpl in H. inversion H; subst. split; [reflexivity|].
  apply reshape_pairs_inv, E.
Qed.

Lemma dedup_points_total (pts : list row) :
  Nat.even (length pts) = true ->
  exists verts edges, dedup_points pts = Ok (verts, edges).
Proof.
  intros Hev. apply Nat.even_spec in Hev. destruct Hev as [k Hk].
  unfold dedup_points, unique_axis0.
  destruct (reshape_pairs_total k (map (fun p => row_index p (sorted_unique pts)) pts))
    as (ps & Hps & _).
  { rewrite length_map. exact Hk. }
  rewrite Hps. simpl. eauto.
Qed.

Lemma dedup_points_bounds (pts : list row) (verts : list row)
    (edges : list (nat * nat)) :
  dedup_points pts = Ok (verts, edges) ->
  length pts = (2 * length edges)%nat
  /\ (length verts <= length pts)%nat
  /\ Forall (fun e : nat * nat =>
               (e.1 < length verts)%nat /\ (e.2 < length verts)%nat) edges.
Proof.
  intros H. apply dedup_points_inv in H. destruct H as [Hv Hinv].
  split; [|split].
  - rewrite <- flatten_pairs_length, <- Hinv, length_map. reflexivity.
  - subst verts. apply sorted_unique_length.
  - apply List.Forall_forall. intros [i j] Hin.
    apply in_flatten_pairs in Hin. rewrite <- Hinv in Hin.
    destruct Hin as [Hi Hj].
    apply in_map_iff in Hi. destruct Hi as (p & <- & Hp).
    apply in_map_iff in Hj. destruct Hj as (q & <- & Hq).
    simpl. split; apply row_index_lt; subst verts; apply in_sorted_unique;
      assumption.
Qed.

Lemma in_dict_set {V : Type} (k k' : N) (v v' : V) (d : dict V) :
  In (k', v') (dict_set k v d) -> (k' = k /\ v' = v) \/ In (k', v') d.
Proof.
  induction d as [|[k0 v0] d IH]; simpl.
  - intros [E | []]. inversion E. tauto.
  - destruct (N.eqb k k0) eqn:Ek; simpl.
    + apply N.eqb_eq in Ek. subst k0.
      intros [E | Hin]; [inversion E|]; tauto.
    + intros [E | Hin]; [tauto|]. destruct (IH Hin); tauto.
Qed.

(** Every entry of the dictionary [fetch_proofread_skeletons] returns is the
    deduplication of what the fetcher returned for that id. *)
Lemma fetch_proofread_skeletons_entries (fetcher : API) (ids : list N)
    (out : dict skeleton) (sid : N) (sk : skeleton) :
  fetch_proofread_skeletons fetcher ids = Ok out ->
  In (sid, sk) out ->
  exists raw,
    fetch_proofread_skeleton fetcher sid = Ok raw /\ dedup_skeleton raw = Ok sk.
Proof.
  unfold fetch_proofread_skeletons.
  assert (Hgen : forall acc,
    (forall s k, In (s, k) acc ->
       exists raw, fetch_proofread_skeleton fetcher s = Ok raw
                   /\ dedup_skeleton raw = Ok k) ->
    fetch_skeletons_loop fetcher ids acc = Ok out ->
    forall s k, In (s, k) out ->
       exists raw, fetch_proofread_skeleton fetcher s = Ok raw
                   /\ dedup_skeleton raw = Ok k).
  { induction ids as [|i ids IH]; intros acc Hacc Hloop; simpl in Hloop.
    - inversion Hloop; subst. exact Hacc.
    - destruct (fetch_proofread_skeleton fetcher i) as [raw|] eqn:Er;
        [|discriminate].
      simpl in Hloop.
      destruct (dedup_skeleton raw) as [sk0|] eqn:Ed; [|discriminate].
      simpl in Hloop. apply (IH (dict_set i sk0 acc)); [|exact Hloop].
      intros s k Hin.
      destruct (in_dict_set _ _ _ _ _ Hin) as [[-> ->] | Hold].
      + exists raw. split; assumption.
      + apply Hacc, Hold. }
  intros Hloop Hin. apply (Hgen []); [|exact Hloop|exact Hin].
  intros s k [].
Qed.

End Dedup.

(** C1.  For a raw point stream whose length is a multiple of three, the
    deduplication returns a pair whenever the number of points is even, and
    any pair it returns has all edge indices below the number of vertices
    and at most [2 * E] vertices, [E] being the number of input edges. *)
Theorem dedup_skeleton_indices_bounded (raw : list Z) :
  Nat.modulo (length raw) 3 = 0%nat ->
  (Nat.even (length raw / 3) = true -> exists sk, dedup_skeleton raw = Ok sk)
  /\ forall verts edges,
       dedup_skeleton raw = Ok (verts, edges) ->
       Forall (fun e : nat * nat =>
                 (e.1 < length verts)%nat /\ (e.2 < length verts)%nat) edges
       /\ (length verts <= 2 * (length raw / 3 / 2))%nat.
Proof.
  intros Hmod.
  assert (Hlen : length raw = (3 * (length raw / 3))%nat).
  { pose proof (Nat.div_mod_eq (length raw) 3). lia. }
  split.
  - intros Hev.
    destruct (reshape_rows3_total _ _ Hlen) as (pts & Hpts & Hn).
    rewrite <- Hn in Hev.
    destruct (dedup_points_total pts Hev) as (verts & edges & Hd).
    exists (verts, edges).
    rewrite (reshape_rows3_inv _ _ Hpts), dedup_skeleton_flatten. exact Hd.
  - intros verts edges Hd.
    apply dedup_skeleton_points in Hd. destruct Hd as (pts & -> & Hd).
    apply dedup_points_bounds in Hd. destruct Hd as (He & Hv & Hall).
    split; [exact Hall|].
    rewrite flatten_rows_length.
    replace (3 * length pts / 3)%nat with (length pts)
      by (symmetry; rewrite Nat.mul_comm; apply Nat.div_mul; lia).
    rewrite He.
    replace (2 * length edges / 2)%nat with (length edges)
      by (symmetry; rewrite Nat.mul_comm; apply Nat.div_mul; lia).
    lia.
Qed.

Lemma dedup_skeleton_indices_bounded_witness :
  Nat.modulo (length [1; 2; 3; 0; 0; 0; 0; 0; 0; 1; 2; 3]) 3 = 0%nat
  /\ dedup_skeleton [1; 2; 3; 0; 0; 0; 0; 0; 0; 1; 2; 3]
     = Ok ([(0, 0, 0); (1, 2, 3)], [(1, 0); (0, 1)]%nat)
  /\ (length [(0, 0, 0); (1, 2, 3)] <= 2 * (12 / 3 / 2))%nat.
Proof.
  split; [reflexivity|]. split; [reflexivity|].
  exact (proj2 (proj2 (dedup_skeleton_indices_bounded
                         [1; 2; 3; 0; 0; 0; 0; 0; 0; 1; 2; 3] eq_refl)
                      [(0, 0, 0); (1, 2, 3)] [(1, 0); (0, 1)]%nat eq_refl)).
Defined.

(** C2.  From an even-length point array the deduplication returns the
    distinct coordinates of the input, each once, and edge [e] holds the
    vertex indices of points [2e] and [2e+1]; a pair of identical points
    gives the self-loop [(i, i)], which stays in the output. *)
Theorem dedup_points_spec (pts : list row) :
  Nat.even (length pts) = true ->
  exists verts edges,
    dedup_skeleton (flatten_rows pts) = Ok (verts, edges)
    /\ NoDup verts
    /\ (forall p, In p verts <-> In p pts)
    /\ length edges = (length pts / 2)%nat
    /\ forall e p q,
         pts !! (2 * e)%nat = Some p -> pts !! (2 * e + 1)%nat = Some q ->
         exists i j,
           edges !! e = Some (i, j)
           /\ verts !! i = Some p /\ verts !! j = Some q
           /\ (p = q -> i = j).
Proof.
  intros Hev. rewrite dedup_skeleton_flatten.
  destruct (dedup_points_total pts Hev) as (verts & edges & Hd).
  exists verts, edges. split; [exact Hd|].
  destruct (dedup_points_bounds _ _ _ Hd) as (Hlen & _ & _).
  destruct (dedup_points_inv _ _ _ Hd) as [Hv Hinv].
  split; [subst verts; apply sorted_NoDup, sorted_unique_sorted|].
  split; [subst verts; intros p; apply in_sorted_unique|].
  split.
  { rewrite Hlen, Nat.mul_comm. symmetry. apply Nat.div_mul. lia. }
  intros e p q Hp Hq.
  destruct (flatten_pairs_lookup edges e) as [H0 H1].
  rewrite <- Hinv, list_lookup_fmap in H0, H1.
  rewrite Hp in H0. rewrite Hq in H1. simpl in H0, H1.
  destruct (edges !! e) as [[i j]|]; [|discriminate].
  simpl in H0, H1. inversion H0; inversion H1; subst i j.
  exists (row_index p verts), (row_index q verts).
  split; [reflexivity|].
  assert (Hin : forall r k, pts !! k = Some r -> In r verts).
  { intros r k Hk. subst verts. apply in_sorted_unique.
    apply list_elem_of_In. eapply list_elem_of_lookup_2, Hk. }
  split; [apply row_index_spec; eauto|].
  split; [apply row_index_spec; eauto|].
  intros ->. reflexivity.
Qed.

Lemma dedup_points_spec_witness :
  exists verts edges,
    dedup_skeleton (flatten_rows [(1, 2, 3); (1, 2, 3); (0, 0, 0); (1, 2, 3)])
    = Ok (verts, edges)
    /\ verts = [(0, 0, 0); (1, 2, 3)]
    /\ edges = [(1, 1); (0, 1)]%nat.
Proof.
  destruct (dedup_points_spec [(1, 2, 3); (1, 2, 3); (0, 0, 0); (1, 2, 3)] eq_refl)
    as (verts & edges & Hd & _).
  exists verts, edges. split; [exact Hd|].
  vm_compute in Hd. inversion Hd. split; reflexivity.
Defined.

(** C10.  The vertex array is strictly increasing in the lexicographic
    order of coordinates, and it depends only on the set of coordinates of
    the input: two inputs with the same coordinates give the same array. *)
Theorem dedup_vertices_canonical (pts1 pts2 : list row)
    (v1 v2 : list row) (e1 e2 : list (nat * nat)) :
  dedup_skeleton (flatten_rows pts1) = Ok (v1, e1) ->
  dedup_skeleton (flatten_rows pts2) = Ok (v2, e2) ->
  StronglySorted row_lt v1
  /\ ((forall p, In p pts1 <-> In p pts2) -> v1 = v2).
Proof.
  rewrite !dedup_skeleton_flatten. intros H1 H2.
  apply dedup_points_inv in H1. destruct H1 as [-> _].
  apply dedup_points_inv in H2. destruct H2 as [-> _].
  split; [apply sorted_unique_sorted|].
  intros Hext. apply sorted_ext; try apply sorted_unique_sorted.
  intros p. rewrite !in_sorted_unique. apply Hext.
Qed.

Lemma dedup_vertices_canonical_witness :
  StronglySorted row_lt [(0, 0, 0); (1, 2, 3)]
  /\ ((forall p, In p [(1, 2, 3); (0, 0, 0)]
                 <-> In p [(0, 0, 0); (1, 2, 3); (1, 2, 3); (0, 0, 0)]) ->
      [(0, 0, 0); (1, 2, 3)] = [(0, 0, 0); (1, 2, 3)]).
Proof.
  exact (dedup_vertices_canonical
           [(1, 2, 3); (0, 0, 0)] [(0, 0, 0); (1, 2, 3); (1, 2, 3); (0, 0, 0)]
           [(0, 0, 0); (1, 2, 3)] [(0, 0, 0); (1, 2, 3)]
           [(1, 0)]%nat [(0, 1); (1, 0)]%nat eq_refl eq_refl).
Defined.

(** ** Publishing to the object store *)

Section Publish.

Lemma string_app_assoc (a b c : string) : (a +:+ b) +:+ c = a +:+ b +:+ c.
Proof.
  induction a as [|ch a IH]; [reflexivity|].
  change (String ch ((a +:+ b) +:+ c) = String ch (a +:+ b +:+ c)).
  f_equal. exact IH.
Qed.

Lemma fragment_key_prefix (s3_base_path fragment_dir_name : string) (sid : N) :
  fragment_key (s3_base_path +:+ "/" +:+ fragment_dir_name) sid
  = s3_base_path +:+ "/" +:+ fragment_dir_name +:+ "/" +:+ pretty sid +:+ ":0".
Proof. unfold fragment_key. rewrite !string_app_assoc. reflexivity. Qed.

Lemma upload_fragments_trace (bucket s3_base_path fragment_dir_name : string)
    (items : dict (list byte)) (tr : s3_trace) :
  upload_fragments bucket (s3_base_path +:+ "/" +:+ fragment_dir_name) items tr
  = tr ++ map (fragment_put bucket s3_base_path fragment_dir_name) items.
Proof.
  revert tr. induction items as [|[sid frag_bytes] items IH]; intros tr; simpl.
  - rewrite app_nil_r. reflexivity.
  - rewrite IH. unfold put_object, fragment_put. simpl.
    rewrite fragment_key_prefix, <- app_assoc. reflexivity.
Qed.

Lemma s3_serve_lookup (tr : s3_trace) (m : gmap (string * string) (body * string))
    (k : string * string) :
  s3_serve m tr !! k
  = match last_put k tr with Some o => Some o | None => m !! k end.
Proof.
  revert m. induction tr as [|req tr IH]; intros m; simpl; [reflexivity|].
  unfold s3_serve in *. simpl. rewrite IH.
  destruct (last_put k tr); [reflexivity|].
  destruct (decide ((Bucket req, Key req) = k)) as [<- | Hne].
  - apply lookup_insert_eq.
  - apply lookup_insert_ne. exact Hne.
Qed.

Lemma s3_serve_app (tr1 tr2 : s3_trace) (m : gmap (string * string) (body * string)) :
  s3_serve m (tr1 ++ tr2) = s3_serve (s3_serve m tr1) tr2.
Proof. unfold s3_serve. apply foldl_app. Qed.

(** Serving a trace a second time leaves the store as it is. *)
Lemma s3_serve_twice (tr : s3_trace) (m : gmap (string * string) (body * string)) :
  s3_serve (s3_serve m tr) tr = s3_serve m tr.
Proof.
  apply map_eq. intros k. rewrite s3_serve_lookup.
  destruct (last_put k tr) as [o|] eqn:E; [|reflexivity].
  rewrite s3_serve_lookup, E. reflexivity.
Qed.

End Publish.

(** C5.  The upload issues, for every item [(S, bytes)] of the fragment
    dictionary and in order, one put of [bytes] under the key
    [{basePath}/{meshDirName}/{S}:0] with content type
    [application/octet-stream]; writing the manifest issues one put under
    [{basePath}/info] with content type [application/json]. *)
Theorem publish_keys_and_content_types (fragments : dict (list byte))
    (bucket base dir : string) (cfg : gmap string json) (tr : s3_trace) :
  (upload_meshes_to_s3 fragments bucket base dir tr).2
  = tr ++ map (fun item : N * list byte =>
                 mkPut bucket
                   (base +:+ "/" +:+ dir +:+ "/" +:+ pretty item.1 +:+ ":0")
                   (RawBytes item.2) "application/octet-stream") fragments
  /\ write_info_file bucket base dir cfg tr
     = tr ++ [mkPut bucket (base +:+ "/info")
                    (JsonText (make_info dir cfg)) "application/json"].
Proof.
  split.
  - unfold upload_meshes_to_s3. simpl. apply upload_fragments_trace.
  - reflexivity.
Qed.

(** The scenario of the specification: segment 10 under [exp1/mesh]. *)
Example publish_scenario_keys :
  map Key (write_info_file "bucket" "exp1" "mesh" ∅
             (upload_meshes_to_s3 [(10%N, [x01; x02])] "bucket" "exp1" "mesh" []).2)
  = ["exp1/mesh/10:0"; "exp1/info"].
Proof. vm_compute. reflexivity. Qed.

(** C6.  Publishing is idempotent: uploading the same fragments a second
    time leaves the store, whatever it held before, exactly as the first
    upload left it; and what the store holds for a fragment is the
    fragment's bytes, replacing any earlier object under that key. *)
Theorem publish_idempotent (fragments : dict (list byte))
    (bucket base dir : string) (m0 : gmap (string * string) (body * string)) :
  let once := (upload_meshes_to_s3 fragments bucket base dir []).2 in
  let twice := (upload_meshes_to_s3 fragments bucket base dir once).2 in
  s3_serve m0 twice = s3_serve m0 once
  /\ forall sid frag_bytes,
       let key := base +:+ "/" +:+ dir +:+ "/" +:+ pretty sid +:+ ":0" in
       let tr1 := (upload_meshes_to_s3 [(sid, frag_bytes)] bucket base dir []).2 in
       let tr2 := (upload_meshes_to_s3 [(sid, frag_bytes)] bucket base dir tr1).2 in
       s3_serve m0 tr1 !! (bucket, key)
         = Some (RawBytes frag_bytes, "application/octet-stream")
       /\ s3_serve m0 tr2 !! (bucket, key)
         = Some (RawBytes frag_bytes, "application/octet-stream").
Proof.
  cbv zeta. unfold upload_meshes_to_s3. simpl. split.
  - rewrite !upload_fragments_trace. simpl.
    rewrite s3_serve_app. apply s3_serve_twice.
  - intros sid frag_bytes. rewrite !fragment_key_prefix.
    unfold put_object, s3_serve. simpl. split.
    + apply lookup_insert_eq.
    + apply lookup_insert_eq.
Qed.

(** ** The manifest *)

(** With an empty configuration the manifest's [chunk_sizes] is the default
    [[[64, 64, 64]]]: a list holding one triple, not a sequence of three
    numbers. *)
Lemma manifest_default_chunk_sizes_not_triple :
  ~ (exists cs,
       scale0_field "chunk_sizes" (make_info "mesh" ∅) = Some cs
       /\ is_numeric_triple cs = true).
Proof.
  intros (cs & Hcs & Ht). vm_compute in Hcs. inversion Hcs; subst cs.
  discriminate Ht.
Qed.

(** A configured value is copied into the manifest as it is. *)
Example manifest_passes_resolution_through :
  scale0_field "resolution"
    (make_info "mesh" (<["resolution" := JList [JNum 4; JNum 4]]> ∅))
  = Some (JList [JNum 4; JNum 4]).
Proof. vm_compute. reflexivity. Qed.

(** C4, as the code has it.  The manifest has exactly one scale entry and
    its [mesh] field is the [fragment_dir_name] argument.  The entry's
    [chunk_sizes], [resolution] and [size] are the configured values,
    unchecked, or the defaults when the key is absent; the default
    [resolution] and [size] are sequences of three numbers and the default
    [chunk_sizes] is a list of one such sequence. *)
Theorem manifest_schema (cfg : gmap string json) (dir : string) :
  scales_length (make_info dir cfg) = Some 1%nat
  /\ json_field "mesh" (make_info dir cfg) = Some (JStr dir)
  /\ scale0_field "chunk_sizes" (make_info dir cfg)
     = Some (default (JList [JList [JNum 64; JNum 64; JNum 64]])
                     (cfg !! "chunk_sizes"))
  /\ scale0_field "resolution" (make_info dir cfg)
     = Some (default (JList [JNum 8; JNum 8; JNum 30]) (cfg !! "resolution"))
  /\ scale0_field "size" (make_info dir cfg)
     = Some (default (JList [JNum 1; JNum 1; JNum 1]) (cfg !! "size"))
  /\ is_numeric_triple <$> scale0_field "resolution" (make_info dir ∅) = Some true
  /\ is_numeric_triple <$> scale0_field "size" (make_info dir ∅) = Some true
  /\ (json_items <$> scale0_field "chunk_sizes" (make_info dir ∅))
     = Some (Some [JList [JNum 64; JNum 64; JNum 64]]).
Proof. repeat split; reflexivity. Qed.

(** ** The viewer session *)

(** C9.  With a skeleton source and a skeleton manager the session has five
    layers, named in order [EM_image], [flat_seg], the mesh layer name,
    [proofread_skeletons_source] and the skeleton layer name; the mesh layer
    and the skeleton source layer are restricted to the given segment ids
    and the manager's layer to the segments the manager has uploaded. *)
Theorem viewer_layer_names (image_source seg_source mesh_source skel_source
    mesh_name skel_name : string) (ids : list N) (dims : list Z)
    (skmgr : SkeletonManager) :
  let vs := build_viewer_link image_source seg_source mesh_source
              (Some skel_source) mesh_name ids dims (Some skmgr) skel_name in
  map name (layers vs)
  = ["EM_image"; "flat_seg"; mesh_name; "proofread_skeletons_source"; skel_name]
  /\ map segments (layers vs)
     = [None; None; Some ids; Some ids; Some (uploaded_root_ids skmgr)].
Proof. split; reflexivity. Qed.

(** In a run the manager has uploaded one skeleton per dictionary key. *)
Lemma upload_skeletons_loop_uploaded (skeletons : dict skeleton)
    (skmgr : SkeletonManager) (sid : N) :
  sid ∈ uploaded (upload_skeletons_loop skeletons skmgr)
  <-> sid ∈ uploaded skmgr \/ In sid (map fst skeletons).
Proof.
  revert skmgr. induction skeletons as [|[k sk] rest IH]; intros skmgr.
  - simpl. tauto.
  - cbn [upload_skeletons_loop map fst In]. rewrite IH.
    unfold upload_skeleton. cbn [uploaded].
    rewrite elem_of_union, elem_of_singleton. split.
    + intros [[-> | H] | H]; tauto.
    + intros [H | [-> | H]]; tauto.
Qed.

Lemma upload_skeletons_ids (skeletons : dict skeleton) (skmgr : SkeletonManager)
    (sid : N) :
  In sid (uploaded_root_ids (upload_skeletons skeletons skmgr).2)
  <-> In sid (uploaded_root_ids skmgr) \/ In sid (map fst skeletons).
Proof.
  unfold upload_skeletons, uploaded_root_ids. cbn [snd].
  rewrite <- !list_elem_of_In, !elem_of_elements, list_elem_of_In.
  apply upload_skeletons_loop_uploaded.
Qed.

(** ** Failures during a run *)

Section Failures.

Variable fetcher : API.

Lemma fetch_meshes_loop_raises (ids1 ids2 : list N) (sid : N) (e : exn)
    (out : dict (list byte)) :
  Forall (mesh_fetch_ok fetcher) ids1 ->
  mesh_fetch_raises fetcher sid e ->
  fetch_meshes_loop fetcher (ids1 ++ sid :: ids2) out = Raise e.
Proof.
  intros Hok Hbad. revert out.
  induction Hok as [|s ids1 (decim & proof & Hd & Hp) _ IH]; intros out; simpl.
  - destruct Hbad as [Hd | (decim & Hd & Hp)].
    + rewrite Hd. reflexivity.
    + rewrite Hd. simpl. rewrite Hp. reflexivity.
  - rewrite Hd. simpl. rewrite Hp. simpl. apply IH.
Qed.

End Failures.

(** For ids [[10, 20]] where fetching 10 raises [NotFoundError] and 20 can
    be fetched, the run ends with the exception and nothing of segment 20
    is in the object store. *)
Lemma failure_of_one_id_aborts_siblings :
  mesh_fetch_raises (api_missing 10) 10 NotFoundError
  /\ mesh_fetch_ok (api_missing 10) 20
  /\ status_of (main scenario_config (api_missing 10) []).1 = Aborted NotFoundError
  /\ published (main scenario_config (api_missing 10) []).2
               "bucket" "exp1/mesh/20:0" = false.
Proof.
  split; [left; reflexivity|].
  split; [eexists _, _; split; reflexivity|].
  split; vm_compute; reflexivity.
Qed.

(** When every mesh can be fetched the same store key is published. *)
Example all_fetched_publishes :
  published (main scenario_config (api_missing 30) []).2
            "bucket" "exp1/mesh/20:0" = true
  /\ status_of (main scenario_config (api_missing 30) []).1 = Completed.
Proof. split; vm_compute; reflexivity. Qed.

(** C3, as the code has it.  An exception raised while fetching the mesh of
    one segment id leaves [main] at once: no request reaches the object
    store, so nothing is published for any id, and the run ends with that
    exception, whatever the ids before it returned and whatever the ids
    after it would return. *)
Theorem mesh_fetch_failure_aborts_run (cfg : config) (fetcher : API)
    (tr : s3_trace) (ids1 ids2 : list N) (sid : N) (e : exn) :
  segment_ids cfg = ids1 ++ sid :: ids2 ->
  Forall (mesh_fetch_ok fetcher) ids1 ->
  mesh_fetch_raises fetcher sid e ->
  main cfg fetcher tr = (Raise e, tr).
Proof.
  intros Hids Hok Hbad. unfold main, fetch_proofread_meshes.
  rewrite Hids, (fetch_meshes_loop_raises fetcher ids1 ids2 sid e [] Hok Hbad).
  reflexivity.
Qed.

Lemma mesh_fetch_failure_aborts_run_witness :
  mesh_fetch_ok (api_missing 20) 30
  /\ main scenario_config3 (api_missing 20) [] = (Raise NotFoundError, []).
Proof.
  split; [eexists _, _; split; reflexivity|].
  apply (mesh_fetch_failure_aborts_run scenario_config3 (api_missing 20) []
           [10%N] [30%N] 20%N NotFoundError).
  - reflexivity.
  - constructor; [|constructor]. eexists _, _. split; reflexivity.
  - left. reflexivity.
Defined.

(** ** The precomputed encoding *)

Section Codec.

Lemma byte_of_N_to_N (n : N) : Byte.to_N (byte_of_N n) = (n mod 256)%N.
Proof.
  unfold byte_of_N. destruct (Byte.of_N (n mod 256)%N) as [b|] eqn:E; simpl.
  - apply Byte.to_of_N, E.
  - apply Byte.of_N_None_iff in E.
    pose proof (N.mod_upper_bound n 256). lia.
Qed.

Lemma word_of_le32_le32 (w : word32) :
  (w < 2 ^ 32)%N ->
  word_of_le32 (byte_of_N w) (byte_of_N (w / 256)%N) (byte_of_N (w / 65536)%N)
               (byte_of_N (w / 16777216)%N) = w.
Proof.
  intros Hw. unfold word_of_le32. rewrite !byte_of_N_to_N.
  change (2 ^ 32)%N with 4294967296%N in Hw.
  change 65536%N with (256 * 256)%N. change 16777216%N with (256 * 256 * 256)%N.
  rewrite <- !N.Div0.div_div.
  pose proof (N.div_mod' w 256).
  pose proof (N.div_mod' (w / 256) 256).
  pose proof (N.div_mod' (w / 256 / 256) 256).
  pose proof (N.mod_upper_bound w 256).
  pose proof (N.mod_upper_bound (w / 256) 256).
  pose proof (N.mod_upper_bound (w / 256 / 256) 256).
  assert (w / 256 / 256 / 256 < 256)%N.
  { rewrite !N.Div0.div_div. apply N.Div0.div_lt_upper_bound. lia. }
  rewrite (N.mod_small (w / 256 / 256 / 256) 256) by assumption.
  pose proof (N.div_mod' (w / 256 / 256) 256).
  lia.
Qed.

Lemma tobytes_cons (t : triple) (a : list triple) :
  tobytes (t :: a) = (le32 t.1.1 ++ le32 t.1.2 ++ le32 t.2) ++ tobytes a.
Proof. destruct t as [[x y] z]. reflexivity. Qed.

Lemma tobytes_length (a : list triple) :
  length (tobytes a) = (12 * length a)%nat.
Proof.
  induction a as [|t a IH]; [reflexivity|].
  rewrite tobytes_cons, length_app, IH. simpl. lia.
Qed.

Lemma to_precomputed_length (m : Mesh) :
  length (to_precomputed m)
  = (4 + 12 * length (vertices m) + 12 * length (faces m))%nat.
Proof.
  unfold to_precomputed. rewrite !length_app, !tobytes_length. simpl. lia.
Qed.

Lemma frombuffer_tobytes (a : list triple) :
  Forall fits32 a -> frombuffer (tobytes a) = Ok a.
Proof.
  induction 1 as [|[[x y] z] a (Hx & Hy & Hz) _ IH]; [reflexivity|].
  rewrite tobytes_cons. unfold le32. simpl app. simpl frombuffer.
  rewrite IH, !word_of_le32_le32 by assumption. reflexivity.
Qed.

(** Decoding an encoded fragment gives the mesh back as soon as the
    fragment is representable. *)
Lemma from_to_precomputed (m : Mesh) :
  representable m -> from_precomputed (to_precomputed m) (segid m) = Ok m.
Proof.
  intros (Hn & Hv & Hf). destruct m as [vs fs sid].
  cbn [vertices faces segid] in *.
  unfold to_precomputed, le32. cbn [vertices faces app]. unfold from_precomputed.
  rewrite word_of_le32_le32 by exact Hn. rewrite Nat2N.id.
  assert (Hge : (length (tobytes vs ++ tobytes fs) <? 12 * length vs)%nat = false).
  { apply Nat.ltb_ge. rewrite length_app, !tobytes_length. lia. }
  rewrite Hge.
  rewrite take_app_length' by (rewrite tobytes_length; reflexivity).
  rewrite drop_app_length' by (rewrite tobytes_length; reflexivity).
  rewrite !frombuffer_tobytes by assumption. reflexivity.
Qed.

End Codec.

(** A mesh whose only face points past its single vertex is encoded all the
    same: the fetch returns its 28-byte fragment. *)
Lemma encoding_accepts_out_of_range_face :
  faces_in_range (mkMesh [(0, 0, 0)]%N [(0, 1, 5)]%N 10) = false
  /\ exists frag,
       fetch_proofread_meshes api_bad_face [10%N] = Ok [(10%N, frag)]
       /\ length frag = 28%nat.
Proof.
  split; [reflexivity|]. eexists. split; [reflexivity|]. reflexivity.
Qed.

(** C7, as the code has it.  Encoding checks nothing: whatever mesh the
    fetch returns for a segment id, with face indices in range or not and
    of any size, its fragment of [4 + 12 V + 12 F] bytes is stored in the
    result dictionary. *)
Theorem encoding_is_unchecked (fetcher : API) (sid : N)
    (decim proof : fetched_mesh) :
  fetch_segment_id_mesh fetcher sid = Ok decim ->
  fetch_proofread_mesh fetcher decim sid = Ok proof ->
  let frag := to_precomputed (mkMesh (fm_vertices proof) (fm_faces proof) sid) in
  fetch_proofread_meshes fetcher [sid] = Ok [(sid, frag)]
  /\ length frag
     = (4 + 12 * length (fm_vertices proof) + 12 * length (fm_faces proof))%nat.
Proof.
  intros Hd Hp frag. split.
  - unfold fetch_proofread_meshes. simpl. rewrite Hd. simpl. rewrite Hp.
    reflexivity.
  - unfold frag. rewrite to_precomputed_length. reflexivity.
Qed.

Lemma encoding_is_unchecked_witness :
  exists frag,
    fetch_proofread_meshes api_bad_face [10%N] = Ok [(10%N, frag)]
    /\ length frag = (4 + 12 * 1 + 12 * 1)%nat.
Proof.
  eexists.
  exact (encoding_is_unchecked api_bad_face 10 (mkFetched [] [])
           (mkFetched [(0, 0, 0)]%N [(0, 1, 5)]%N) eq_refl eq_refl).
Defined.

(** C8.  Decoding the fragment of a well-formed mesh gives back its vertex
    and face arrays exactly. *)
Theorem precomputed_round_trip (m : Mesh) :
  well_formed m ->
  exists m',
    from_precomputed (to_precomputed m) (segid m) = Ok m'
    /\ vertices m' = vertices m /\ faces m' = faces m.
Proof.
  intros [Hrep _]. exists m. rewrite from_to_precomputed by exact Hrep.
  repeat split.
Qed.

Lemma precomputed_round_trip_witness :
  exists m',
    from_precomputed
      (to_precomputed (mkMesh [(0, 0, 0); (1065353216, 0, 0); (0, 1065353216, 0)]%N
                              [(0, 1, 2)]%N 10))
      10 = Ok m'
    /\ vertices m' = [(0, 0, 0); (1065353216, 0, 0); (0, 1065353216, 0)]%N
    /\ faces m' = [(0, 1, 2)]%N.
Proof.
  apply (precomputed_round_trip
           (mkMesh [(0, 0, 0); (1065353216, 0, 0); (0, 1065353216, 0)]%N
                   [(0, 1, 2)]%N 10)).
  split; [|reflexivity].
  split; [reflexivity|].
  split; repeat constructor.
Defined.

(** * Further properties of the code *)

(** ** Skeleton deduplication: failures, reconstruction, coverage *)

Section DedupMore.

Lemma reshape_rows3_raise (n : nat) (flat : list Z) (e : exn) :
  (length flat <= n)%nat -> reshape_rows3 flat = Raise e -> e = ValueError.
Proof.
  revert flat. induction n as [|n IH]; intros flat Hlen Hr.
  - destruct flat; [discriminate | simpl in Hlen; lia].
  - destruct flat as [|x [|y [|z rest]]]; simpl in Hr; try congruence.
    destruct (reshape_rows3 rest) eqn:E; [discriminate|].
    inversion Hr; subst. apply (IH rest); [simpl in Hlen; lia | exact E].
Qed.

Lemma reshape_pairs_raise (n : nat) (flat : list nat) (e : exn) :
  (length flat <= n)%nat -> reshape_pairs flat = Raise e -> e = ValueError.
Proof.
  revert flat. induction n as [|n IH]; intros flat Hlen Hr.
  - destruct flat; [discriminate | simpl in Hlen; lia].
  - destruct flat as [|i [|j rest]]; simpl in Hr; try congruence.
    destruct (reshape_pairs rest) eqn:E; [discriminate|].
    inversion Hr; subst. apply (IH rest); [simpl in Hlen; lia | exact E].
Qed.

Lemma dedup_skeleton_raise (raw : list Z) (e : exn) :
  dedup_skeleton raw = Raise e -> e = ValueError.
Proof.
  unfold dedup_skeleton. intros H.
  destruct (reshape_rows3 raw) as [pts|e0] eqn:E; simpl in H.
  - unfold unique_axis0 in H.
    destruct (reshape_pairs _) as [ps|e1] eqn:E1; simpl in H; [discriminate|].
    inversion H; subst. eapply reshape_pairs_raise; [|exact E1]. reflexivity.
  - inversion H; subst. eapply reshape_rows3_raise; [|exact E]. reflexivity.
Qed.

Lemma dedup_skeleton_ok_length (raw : list Z) (verts : list row)
    (edges : list (nat * nat)) :
  dedup_skeleton raw = Ok (verts, edges) ->
  length raw = (6 * length edges)%nat.
Proof.
  intros H. apply dedup_skeleton_points in H. destruct H as (pts & -> & Hd).
  apply dedup_points_bounds in Hd. destruct Hd as (He & _).
  rewrite flatten_rows_length, He. lia.
Qed.

Lemma in_flatten_pairs_inv (ps : list (nat * nat)) (i : nat) :
  In i (flatten_pairs ps) -> exists e, In e ps /\ (e.1 = i \/ e.2 = i).
Proof.
  induction ps as [|[a b] ps IH]; simpl; [tauto|].
  intros [<- | [<- | Hin]].
  - exists (a, b). simpl. tauto.
  - exists (a, b). simpl. tauto.
  - destruct (IH Hin) as (e & He & Hi). exists e. tauto.
Qed.

End DedupMore.

(** X1.  The deduplication succeeds exactly on raw arrays whose length is a
    multiple of six (whole points, two per edge); on any other length it
    raises [ValueError], and then with six numbers per returned edge. *)
Theorem dedup_skeleton_ok_iff (raw : list Z) :
  (if (length raw mod 6 =? 0)%nat
   then exists verts edges,
          dedup_skeleton raw = Ok (verts, edges)
          /\ length raw = (6 * length edges)%nat
   else dedup_skeleton raw = Raise ValueError).
Proof.
  destruct (length raw mod 6 =? 0)%nat eqn:E.
  - apply Nat.eqb_eq in E.
    pose proof (Nat.div_mod_eq (length raw) 6) as Hdm.
    assert (H3 : length raw = (3 * (2 * (length raw / 6)))%nat) by lia.
    destruct (reshape_rows3_total _ _ H3) as (pts & Hpts & Hn).
    assert (Hev : Nat.even (length pts) = true).
    { apply Nat.even_spec. exists (length raw / 6)%nat. exact Hn. }
    destruct (dedup_points_total pts Hev) as (verts & edges & Hd).
    assert (Hs : dedup_skeleton raw = Ok (verts, edges)).
    { rewrite (reshape_rows3_inv _ _ Hpts), dedup_skeleton_flatten. exact Hd. }
    exists verts, edges. split; [exact Hs|].
    apply (dedup_skeleton_ok_length _ _ _ Hs).
  - apply Nat.eqb_neq in E.
    destruct (dedup_skeleton raw) as [[verts edges]|e] eqn:Hd.
    + exfalso. apply E. rewrite (dedup_skeleton_ok_length _ _ _ Hd).
      rewrite Nat.mul_comm. apply Nat.Div0.mod_mul.
    + f_equal. apply (dedup_skeleton_raise _ _ Hd).
Qed.

(** X2.  Nothing of the geometry is lost: replacing every index of the
    returned edge array by the vertex it points to gives back the input
    points, in their order. *)
Theorem dedup_skeleton_reconstructs (raw : list Z) (verts : list row)
    (edges : list (nat * nat)) :
  dedup_skeleton raw = Ok (verts, edges) ->
  exists pts,
    raw = flatten_rows pts
    /\ Forall2 (fun i p => verts !! i = Some p) (flatten_pairs edges) pts.
Proof.
  intros H. apply dedup_skeleton_points in H. destruct H as (pts & -> & Hd).
  exists pts. split; [reflexivity|].
  apply dedup_points_inv in Hd. destruct Hd as [Hv Hinv]. rewrite <- Hinv.
  assert (Hin : forall p, In p pts -> In p verts).
  { intros p Hp. subst verts. apply in_sorted_unique, Hp. }
  clear Hinv Hv. induction pts as [|p pts IH]; simpl; constructor.
  - apply row_index_spec, Hin. left. reflexivity.
  - apply IH. intros q Hq. apply Hin. right. exact Hq.
Qed.

Lemma dedup_skeleton_reconstructs_witness :
  exists pts,
    [1; 2; 3; 0; 0; 0; 0; 0; 0; 1; 2; 3] = flatten_rows pts
    /\ Forall2 (fun i p => [(0, 0, 0); (1, 2, 3)] !! i = Some p)
               (flatten_pairs [(1, 0); (0, 1)]%nat) pts.
Proof.
  exact (dedup_skeleton_reconstructs [1; 2; 3; 0; 0; 0; 0; 0; 0; 1; 2; 3]
           [(0, 0, 0); (1, 2, 3)] [(1, 0); (0, 1)]%nat eq_refl).
Defined.

(** X3.  The vertex array has no orphan: every vertex is an endpoint of at
    least one returned edge. *)
Theorem dedup_skeleton_no_orphan (raw : list Z) (verts : list row)
    (edges : list (nat * nat)) (i : nat) :
  dedup_skeleton raw = Ok (verts, edges) ->
  (i < length verts)%nat ->
  exists e, In e edges /\ (e.1 = i \/ e.2 = i).
Proof.
  intros H Hi. apply dedup_skeleton_points in H. destruct H as (pts & -> & Hd).
  apply dedup_points_inv in Hd. destruct Hd as [Hv Hinv].
  apply in_flatten_pairs_inv. rewrite <- Hinv.
  destruct (lookup_lt_is_Some_2 verts i Hi) as [p Hp].
  assert (Hin : In p verts).
  { apply list_elem_of_In. eapply list_elem_of_lookup_2, Hp. }
  assert (Hnd : NoDup verts).
  { subst verts. apply sorted_NoDup, sorted_unique_sorted. }
  rewrite <- (NoDup_lookup verts _ _ p Hnd (row_index_spec p verts Hin) Hp).
  apply in_map_iff. exists p. split; [reflexivity|].
  subst verts. exact (proj1 (in_sorted_unique p pts) Hin).
Qed.

Lemma dedup_skeleton_no_orphan_witness :
  exists e, In e [(1, 0); (0, 1)]%nat /\ (e.1 = 1%nat \/ e.2 = 1%nat).
Proof.
  apply (dedup_skeleton_no_orphan [1; 2; 3; 0; 0; 0; 0; 0; 0; 1; 2; 3]
           [(0, 0, 0); (1, 2, 3)] [(1, 0); (0, 1)]%nat 1 eq_refl).
  simpl. lia.
Defined.

(** ** Dictionaries built by the fetch loops *)

Section DictFacts.

Context {V : Type}.

Lemma dict_set_in (k : N) (v : V) (d : dict V) :
  In k (map fst d) -> map fst (dict_set k v d) = map fst d.
Proof.
  induction d as [|[k0 v0] d IH]; simpl; [tauto|].
  intros Hin. destruct (N.eqb k k0) eqn:E; simpl; [reflexivity|].
  f_equal. apply IH. destruct Hin as [-> | Hin]; [|exact Hin].
  rewrite N.eqb_refl in E. discriminate.
Qed.

Lemma dict_set_notin (k : N) (v : V) (d : dict V) :
  ~ In k (map fst d) -> dict_set k v d = d ++ [(k, v)].
Proof.
  induction d as [|[k0 v0] d IH]; simpl; [reflexivity|].
  intros Hn. destruct (N.eqb k k0) eqn:E.
  - apply N.eqb_eq in E. subst k0. tauto.
  - f_equal. apply IH. tauto.
Qed.

Lemma dict_set_keys_NoDup (k : N) (v : V) (d : dict V) :
  NoDup (map fst d) -> NoDup (map fst (dict_set k v d)).
Proof.
  intros Hnd. destruct (in_dec N.eq_dec k (map fst d)) as [Hin | Hn].
  - rewrite dict_set_in by exact Hin. exact Hnd.
  - rewrite dict_set_notin by exact Hn. rewrite map_app. simpl.
    apply NoDup_app. split; [exact Hnd|]. split; [|apply NoDup_singleton].
    intros x Hx Hx'. apply list_elem_of_singleton in Hx'. subst x.
    apply Hn, list_elem_of_In, Hx.
Qed.

Lemma dict_set_keys_iff (k k' : N) (v : V) (d : dict V) :
  In k' (map fst (dict_set k v d)) <-> k' = k \/ In k' (map fst d).
Proof.
  destruct (in_dec N.eq_dec k (map fst d)) as [Hin | Hn].
  - rewrite dict_set_in by exact Hin. split; [tauto|].
    intros [-> | H]; assumption.
  - rewrite dict_set_notin by exact Hn. rewrite map_app, in_app_iff. simpl.
    split; [intros [H | [<- | []]]; tauto | intros [-> | H]; tauto].
Qed.

Lemma dict_get_set_eq (k : N) (v : V) (d : dict V) :
  dict_get k (dict_set k v d) = Some v.
Proof.
  induction d as [|[k0 v0] d IH]; simpl.
  - rewrite N.eqb_refl. reflexivity.
  - destruct (N.eqb k k0) eqn:E; simpl; rewrite E; [reflexivity | exact IH].
Qed.

Lemma dict_get_set_ne (k k' : N) (v : V) (d : dict V) :
  k <> k' -> dict_get k' (dict_set k v d) = dict_get k' d.
Proof.
  intros Hne. induction d as [|[k0 v0] d IH]; simpl.
  - destruct (N.eqb k' k) eqn:E; [|reflexivity].
    apply N.eqb_eq in E. congruence.
  - destruct (N.eqb k k0) eqn:E; simpl.
    + apply N.eqb_eq in E. subst k0.
      destruct (N.eqb k' k) eqn:E'; [|reflexivity].
      apply N.eqb_eq in E'. congruence.
    + rewrite IH. reflexivity.
Qed.

Lemma dict_get_in (k : N) (v : V) (d : dict V) :
  dict_get k d = Some v -> In (k, v) d.
Proof.
  induction d as [|[k0 v0] d IH]; simpl; [discriminate|].
  destruct (N.eqb k k0) eqn:E.
  - apply N.eqb_eq in E. subst k0. intros H. inversion H. tauto.
  - intros H. right. apply IH, H.
Qed.

Lemma dict_get_key (k : N) (d : dict V) :
  In k (map fst d) -> exists v, dict_get k d = Some v.
Proof.
  induction d as [|[k0 v0] d IH]; simpl; [tauto|].
  intros Hin. destruct (N.eqb k k0) eqn:E; [eauto|].
  apply IH. destruct Hin as [-> | Hin]; [|exact Hin].
  rewrite N.eqb_refl in E. discriminate.
Qed.

Lemma dict_set_all_cons (k : N) (v : V) (kvs : list (N * V)) (d : dict V) :
  dict_set_all ((k, v) :: kvs) d = dict_set_all kvs (dict_set k v d).
Proof. reflexivity. Qed.

Lemma dict_set_all_keys_NoDup (kvs : list (N * V)) (d : dict V) :
  NoDup (map fst d) -> NoDup (map fst (dict_set_all kvs d)).
Proof.
  revert d. induction kvs as [|[k v] kvs IH]; intros d Hnd; [exact Hnd|].
  rewrite dict_set_all_cons. apply IH, dict_set_keys_NoDup, Hnd.
Qed.

Lemma dict_set_all_keys_iff (kvs : list (N * V)) (d : dict V) (k : N) :
  In k (map fst (dict_set_all kvs d)) <-> In k (map fst d) \/ In k (map fst kvs).
Proof.
  revert d. induction kvs as [|[k0 v0] kvs IH]; intros d.
  - simpl. tauto.
  - rewrite dict_set_all_cons, IH, dict_set_keys_iff. simpl. split.
    + intros [[-> | H] | H]; tauto.
    + intros [H | [-> | H]]; tauto.
Qed.

Lemma dict_set_all_entries (P : N -> V -> Prop) (kvs : list (N * V)) (d : dict V) :
  (forall k v, In (k, v) d -> P k v) ->
  Forall (fun kv => P kv.1 kv.2) kvs ->
  forall k v, In (k, v) (dict_set_all kvs d) -> P k v.
Proof.
  intros Hd Hk. revert d Hd.
  induction Hk as [|[k0 v0] kvs H0 _ IH]; intros d Hd; [exact Hd|].
  rewrite dict_set_all_cons. apply IH. intros k v Hin.
  destruct (in_dict_set _ _ _ _ _ Hin) as [[-> ->] | Hold]; [exact H0|].
  apply Hd, Hold.
Qed.

(** With pairwise distinct keys the assignments only append. *)
Lemma dict_set_all_fresh (kvs : list (N * V)) (d : dict V) :
  NoDup (map fst d ++ map fst kvs) -> dict_set_all kvs d = d ++ kvs.
Proof.
  revert d. induction kvs as [|[k v] kvs IH]; intros d Hnd.
  - simpl. rewrite app_nil_r. reflexivity.
  - assert (Hn : ~ In k (map fst d)).
    { simpl in Hnd. apply NoDup_app in Hnd. destruct Hnd as (_ & Hdis & _).
      intros Hin. apply (Hdis k); [apply list_elem_of_In, Hin|].
      left. }
    rewrite dict_set_all_cons, dict_set_notin by exact Hn.
    rewrite IH.
    + rewrite <- app_assoc. reflexivity.
    + rewrite map_app, <- app_assoc. exact Hnd.
Qed.

End DictFacts.

Section FetchResults.

Variable fetcher : API.

Lemma fetch_meshes_loop_updates (ids : list N) (acc out : dict (list byte)) :
  fetch_meshes_loop fetcher ids acc = Ok out ->
  exists kvs,
    map fst kvs = ids
    /\ Forall (fun kv => fetched_fragment fetcher kv.1 kv.2) kvs
    /\ out = dict_set_all kvs acc.
Proof.
  revert acc. induction ids as [|sid ids IH]; intros acc Hl; simpl in Hl.
  - inversion Hl; subst. exists []. repeat split. constructor.
  - destruct (fetch_segment_id_mesh fetcher sid) as [decim|] eqn:Ed;
      [|discriminate].
    simpl in Hl.
    destruct (fetch_proofread_mesh fetcher decim sid) as [proof|] eqn:Ep;
      [|discriminate].
    simpl in Hl. destruct (IH _ Hl) as (kvs & Hk & Hall & Hout).
    exists ((sid, to_precomputed (mkMesh (fm_vertices proof) (fm_faces proof) sid))
              :: kvs).
    split; [simpl; rewrite Hk; reflexivity|].
    split; [|exact Hout].
    constructor; [|exact Hall]. exists decim, proof. repeat split; assumption.
Qed.

Lemma fetch_skeletons_loop_updates (ids : list N) (acc out : dict skeleton) :
  fetch_skeletons_loop fetcher ids acc = Ok out ->
  exists kvs,
    map fst kvs = ids
    /\ Forall (fun kv => fetched_skeleton fetcher kv.1 kv.2) kvs
    /\ out = dict_set_all kvs acc.
Proof.
  revert acc. induction ids as [|sid ids IH]; intros acc Hl; simpl in Hl.
  - inversion Hl; subst. exists []. repeat split. constructor.
  - destruct (fetch_proofread_skeleton fetcher sid) as [raw|] eqn:Er;
      [|discriminate].
    simpl in Hl.
    destruct (dedup_skeleton raw) as [sk|] eqn:Ed; [|discriminate].
    simpl in Hl. destruct (IH _ Hl) as (kvs & Hk & Hall & Hout).
    exists ((sid, sk) :: kvs).
    split; [simpl; rewrite Hk; reflexivity|].
    split; [|exact Hout].
    constructor; [|exact Hall]. exists raw. split; assumption.
Qed.

(** What both fetch loops guarantee about the dictionary they return. *)
Lemma fetched_dict_facts {V : Type} (P : N -> V -> Prop) (ids : list N)
    (kvs : list (N * V)) :
  map fst kvs = ids ->
  Forall (fun kv => P kv.1 kv.2) kvs ->
  let out := dict_set_all kvs [] in
  NoDup (map fst out)
  /\ (forall sid, In sid (map fst out) <-> In sid ids)
  /\ (forall sid v, In (sid, v) out -> P sid v)
  /\ (forall sid, In sid ids -> exists v, dict_get sid out = Some v /\ P sid v)
  /\ (NoDup ids -> map fst out = ids).
Proof.
  intros Hk Hall out.
  assert (Hent : forall sid v, In (sid, v) out -> P sid v).
  { apply dict_set_all_entries; [intros k v []|exact Hall]. }
  assert (Hkeys : forall sid, In sid (map fst out) <-> In sid ids).
  { intros sid. unfold out. rewrite dict_set_all_keys_iff, Hk. simpl. tauto. }
  split; [apply dict_set_all_keys_NoDup; constructor|].
  split; [exact Hkeys|]. split; [exact Hent|]. split.
  - intros sid Hin. apply Hkeys in Hin.
    destruct (dict_get_key _ _ Hin) as [v Hv].
    exists v. split; [exact Hv|]. apply Hent, dict_get_in, Hv.
  - intros Hnd. unfold out. rewrite dict_set_all_fresh; [exact Hk|].
    simpl. rewrite Hk. exact Hnd.
Qed.

End FetchResults.

(** X4.  When [fetch_proofread_meshes] returns, its dictionary has one entry
    per distinct segment id and no other key, every entry is the fragment
    encoded from the mesh fetched for its id, every requested id can be
    looked up, and ids given without repetition keep their order. *)
Theorem fetch_proofread_meshes_result (fetcher : API) (ids : list N)
    (out : dict (list byte)) :
  fetch_proofread_meshes fetcher ids = Ok out ->
  NoDup (map fst out)
  /\ (forall sid, In sid (map fst out) <-> In sid ids)
  /\ (forall sid frag, In (sid, frag) out -> fetched_fragment fetcher sid frag)
  /\ (forall sid, In sid ids ->
        exists frag, dict_get sid out = Some frag
                     /\ fetched_fragment fetcher sid frag)
  /\ (NoDup ids -> map fst out = ids).
Proof.
  intros H. apply fetch_meshes_loop_updates in H.
  destruct H as (kvs & Hk & Hall & ->).
  exact (fetched_dict_facts (fetched_fragment fetcher) ids kvs Hk Hall).
Qed.

Lemma fetch_proofread_meshes_result_witness :
  exists out,
    fetch_proofread_meshes (api_missing 30) [10; 20; 10]%N = Ok out
    /\ map fst out = [10; 20]%N
    /\ NoDup (map fst out).
Proof.
  eexists. split; [reflexivity|]. split; [reflexivity|].
  exact (proj1 (fetch_proofread_meshes_result (api_missing 30) [10; 20; 10]%N
                  _ eq_refl)).
Defined.

(** X5.  The same holds for [fetch_proofread_skeletons]: one entry per
    distinct id, each the deduplicated skeleton of what was fetched for the
    id, in the order of the ids when these do not repeat. *)
Theorem fetch_proofread_skeletons_result (fetcher : API) (ids : list N)
    (out : dict skeleton) :
  fetch_proofread_skeletons fetcher ids = Ok out ->
  NoDup (map fst out)
  /\ (forall sid, In sid (map fst out) <-> In sid ids)
  /\ (forall sid sk, In (sid, sk) out -> fetched_skeleton fetcher sid sk)
  /\ (forall sid, In sid ids ->
        exists sk, dict_get sid out = Some sk /\ fetched_skeleton fetcher sid sk)
  /\ (NoDup ids -> map fst out = ids).
Proof.
  intros H. apply fetch_skeletons_loop_updates in H.
  destruct H as (kvs & Hk & Hall & ->).
  exact (fetched_dict_facts (fetched_skeleton fetcher) ids kvs Hk Hall).
Qed.

Lemma fetch_proofread_skeletons_result_witness :
  exists out,
    fetch_proofread_skeletons (api_missing 30) [10; 20; 10]%N = Ok out
    /\ map fst out = [10; 20]%N
    /\ NoDup (map fst out).
Proof.
  eexists. split; [reflexivity|]. split; [reflexivity|].
  exact (proj1 (fetch_proofread_skeletons_result (api_missing 30) [10; 20; 10]%N
                  _ eq_refl)).
Defined.

(** ** Keys of the object store *)

Section Keys.

Lemma string_length_app (a b : string) :
  String.length (a +:+ b) = (String.length a + String.length b)%nat.
Proof.
  induction a as [|c a IH]; [reflexivity|].
  change (String c a +:+ b) with (String c (a +:+ b)). simpl. rewrite IH.
  reflexivity.
Qed.

Lemma string_app_inj_r (a b s : string) : a +:+ s = b +:+ s -> a = b.
Proof.
  revert b. induction a as [|c a IH]; intros b H.
  - destruct b as [|d b]; [reflexivity|].
    apply (f_equal String.length) in H. rewrite !string_length_app in H.
    simpl in H. lia.
  - destruct b as [|d b].
    + apply (f_equal String.length) in H. rewrite !string_length_app in H.
      simpl in H. lia.
    + change (String c (a +:+ s) = String d (b +:+ s)) in H.
      inversion H; subst. f_equal. apply IH. assumption.
Qed.

Lemma string_chars_app (a b : string) :
  String.list_ascii_of_string (a +:+ b)
  = String.list_ascii_of_string a ++ String.list_ascii_of_string b.
Proof.
  induction a as [|c a IH]; [reflexivity|].
  change (String c a +:+ b) with (String c (a +:+ b)). simpl. rewrite IH.
  reflexivity.
Qed.

Lemma string_prefix_app (a b : string) : String.prefix a (a +:+ b) = true.
Proof.
  induction a as [|c a IH]; [destruct b; reflexivity|].
  change (String c a +:+ b) with (String c (a +:+ b)). simpl.
  destruct (Ascii.ascii_dec c c); [exact IH | congruence].
Qed.

(** Two segment ids never share a fragment key. *)
Lemma fragment_put_key_inj (bucket base dir : string) (i1 i2 : N * list byte) :
  Key (fragment_put bucket base dir i1) = Key (fragment_put bucket base dir i2) ->
  i1.1 = i2.1.
Proof.
  unfold fragment_put. simpl. intros H.
  do 4 apply String.app_inj in H.
  apply string_app_inj_r in H. apply pretty_N_inj in H. exact H.
Qed.

(** The manifest key is no fragment key. *)
Lemma info_key_not_fragment (bucket base dir : string) (cfg : gmap string json)
    (item : N * list byte) :
  Key (fragment_put bucket base dir item) <> Key (info_put bucket base dir cfg).
Proof.
  unfold fragment_put, info_put. simpl. intros H.
  change (base +:+ "/info") with (base +:+ "/" +:+ "info") in H.
  do 2 apply String.app_inj in H.
  apply (f_equal String.list_ascii_of_string) in H.
  rewrite !string_chars_app in H.
  (* the character '/', code 47 *)
  assert (Hin : In (Ascii.Ascii true true true true false true false false)
                   (String.list_ascii_of_string "info")).
  { rewrite <- H. apply in_or_app. right. apply in_or_app. left. left.
    reflexivity. }
  simpl in Hin. intuition discriminate.
Qed.

Lemma last_put_none (k : string * string) (tr : s3_trace) :
  Forall (fun req => (Bucket req, Key req) <> k) tr -> last_put k tr = None.
Proof.
  induction 1 as [|req tr Hne _ IH]; simpl; [reflexivity|].
  rewrite IH. destruct (decide ((Bucket req, Key req) = k)); [tauto|reflexivity].
Qed.

Lemma last_put_snoc (k : string * string) (tr : s3_trace) (req : put_request) :
  last_put k (tr ++ [req])
  = if decide ((Bucket req, Key req) = k)
    then Some (Body req, ContentType req)
    else last_put k tr.
Proof.
  induction tr as [|r tr IH]; simpl.
  - destruct (decide ((Bucket req, Key req) = k)); reflexivity.
  - rewrite IH. destruct (decide ((Bucket req, Key req) = k)); [reflexivity|].
    reflexivity.
Qed.

Lemma last_put_fragments (bucket base dir : string) (fragments : dict (list byte))
    (sid : N) (frag_bytes : list byte) :
  NoDup (map fst fragments) ->
  In (sid, frag_bytes) fragments ->
  last_put (bucket, Key (fragment_put bucket base dir (sid, frag_bytes)))
           (map (fragment_put bucket base dir) fragments)
  = Some (RawBytes frag_bytes, "application/octet-stream").
Proof.
  induction fragments as [|[s0 b0] rest IH]; [simpl; tauto|].
  intros Hnd Hin. simpl in Hnd. apply NoDup_cons in Hnd.
  destruct Hnd as [Hn Hnd]. cbn [map last_put].
  destruct Hin as [E | Hin].
  - inversion E; subst s0 b0. rewrite last_put_none.
    + destruct (decide _) as [_ | Hne]; [reflexivity|].
      exfalso. apply Hne. reflexivity.
    + apply List.Forall_forall. intros req Hreq Heq.
      apply in_map_iff in Hreq. destruct Hreq as ([s1 b1] & <- & H1).
      inversion Heq as [Hk].
      apply (fragment_put_key_inj bucket base dir (s1, b1) (sid, frag_bytes)) in Hk.
      simpl in Hk. subst s1. apply Hn, list_elem_of_In, in_map_iff.
      exists (sid, b1). split; [reflexivity | exact H1].
  - rewrite (IH Hnd Hin). reflexivity.
Qed.

End Keys.

(** What the store holds after the fragments of a dictionary and the
    manifest were put, whatever was sent or stored before. *)
Lemma serve_run_requests (fragments : dict (list byte))
    (bucket base dir : string) (cfg : gmap string json)
    (m0 : gmap (string * string) (body * string)) (tr0 : s3_trace) :
  NoDup (map fst fragments) ->
  let tr := tr0 ++ map (fragment_put bucket base dir) fragments
                ++ [info_put bucket base dir cfg] in
  (forall sid frag_bytes,
     In (sid, frag_bytes) fragments ->
     s3_serve m0 tr
       !! (bucket, base +:+ "/" +:+ dir +:+ "/" +:+ pretty sid +:+ ":0")
     = Some (RawBytes frag_bytes, "application/octet-stream"))
  /\ s3_serve m0 tr !! (bucket, base +:+ "/info")
     = Some (JsonText (make_info dir cfg), "application/json").
Proof.
  intros Hnd tr. unfold tr. rewrite s3_serve_app. split.
  - intros sid frag_bytes Hin.
    change (base +:+ "/" +:+ dir +:+ "/" +:+ pretty sid +:+ ":0")
      with (Key (fragment_put bucket base dir (sid, frag_bytes))).
    rewrite s3_serve_lookup, last_put_snoc.
    destruct (decide _) as [Heq | _].
    + exfalso. inversion Heq as [Hk].
      exact (info_key_not_fragment bucket base dir cfg (sid, frag_bytes)
               (eq_sym Hk)).
    + rewrite (last_put_fragments bucket base dir fragments sid frag_bytes Hnd Hin).
      reflexivity.
  - rewrite s3_serve_lookup, last_put_snoc.
    destruct (decide _) as [_ | Hne]; [reflexivity|].
    exfalso. apply Hne. reflexivity.
Qed.

(** X6.  Distinct segment ids never collide in the store, and the manifest
    never overwrites a fragment: after the upload of a dictionary and the
    write of the manifest, every fragment and the manifest are what the
    store holds under their keys, whatever it held before. *)
Theorem published_objects_retrievable (fragments : dict (list byte))
    (bucket base dir : string) (cfg : gmap string json)
    (m0 : gmap (string * string) (body * string)) :
  NoDup (map fst fragments) ->
  let tr := write_info_file bucket base dir cfg
              (upload_meshes_to_s3 fragments bucket base dir []).2 in
  (forall sid frag_bytes,
     In (sid, frag_bytes) fragments ->
     s3_serve m0 tr
       !! (bucket, base +:+ "/" +:+ dir +:+ "/" +:+ pretty sid +:+ ":0")
     = Some (RawBytes frag_bytes, "application/octet-stream"))
  /\ s3_serve m0 tr !! (bucket, base +:+ "/info")
     = Some (JsonText (make_info dir cfg), "application/json").
Proof.
  intros Hnd tr.
  assert (Htr : tr = [] ++ map (fragment_put bucket base dir) fragments
                     ++ [info_put bucket base dir cfg]).
  { unfold tr, write_info_file, upload_meshes_to_s3, put_object. simpl.
    rewrite upload_fragments_trace. reflexivity. }
  rewrite Htr. apply serve_run_requests, Hnd.
Qed.

Lemma published_objects_retrievable_witness :
  s3_serve ∅ (write_info_file "bucket" "exp1" "mesh" ∅
                (upload_meshes_to_s3 [(10%N, [x01]); (20%N, [x02])]
                                     "bucket" "exp1" "mesh" []).2)
    !! ("bucket", "exp1" +:+ "/info")
  = Some (JsonText (make_info "mesh" ∅), "application/json").
Proof.
  apply (published_objects_retrievable [(10%N, [x01]); (20%N, [x02])]
           "bucket" "exp1" "mesh" ∅ ∅).
  apply NoDup_cons. split; [|apply NoDup_singleton].
  intros H. apply list_elem_of_singleton in H. discriminate H.
Defined.

(** ** The run as a whole *)

Section Run.

Variable cfg : config.
Variable fetcher : API.

Lemma main_unfold (tr : s3_trace) :
  main cfg fetcher tr
  = match fetch_proofread_meshes fetcher (segment_ids cfg) with
    | Raise e => (Raise e, tr)
    | Ok frags =>
        match fetch_proofread_skeletons fetcher (segment_ids cfg) with
        | Raise e => (Raise e, tr ++ mesh_requests cfg frags)
        | Ok sks =>
            let skmgr :=
              (upload_skeletons sks
                 (init_skeleton_manager (segmentation_layer_source cfg)
                    (cfg_bucket cfg) (s3_base_path cfg))).2 in
            (Ok (build_viewer_link (image_layer_source cfg)
                   (segmentation_layer_source cfg)
                   ("s3://" +:+ cfg_bucket cfg +:+ "/" +:+ s3_base_path cfg
                    +:+ "/" +:+ default "mesh" (fragment_dir_name cfg))
                   (Some (skeleton_source skmgr))
                   (default "proofread_meshes" (mesh_layer_name cfg))
                   (segment_ids cfg)
                   (default [8; 8; 30] (viewer_dimensions cfg))
                   (Some skmgr) "proofread_skeletons"),
             tr ++ mesh_requests cfg frags)
        end
    end.
Proof.
  unfold main, mesh_requests.
  destruct (fetch_proofread_meshes fetcher (segment_ids cfg)) as [frags|e];
    [|reflexivity].
  unfold upload_meshes_to_s3, write_info_file, put_object.
  rewrite upload_fragments_trace, <- app_assoc.
  destruct (fetch_proofread_skeletons fetcher (segment_ids cfg)) as [sks|e];
    reflexivity.
Qed.

Lemma fetch_meshes_loop_total (ids : list N) (acc : dict (list byte)) :
  Forall (mesh_fetch_ok fetcher) ids ->
  exists out, fetch_meshes_loop fetcher ids acc = Ok out.
Proof.
  intros Hok. revert acc.
  induction Hok as [|sid ids (decim & proof & Hd & Hp) _ IH]; intros acc; simpl.
  - eauto.
  - rewrite Hd. simpl. rewrite Hp. simpl. apply IH.
Qed.

Lemma fetch_skeletons_loop_total (ids : list N) (acc : dict skeleton) :
  Forall (fun sid => exists sk, fetched_skeleton fetcher sid sk) ids ->
  exists out, fetch_skeletons_loop fetcher ids acc = Ok out.
Proof.
  intros Hok. revert acc.
  induction Hok as [|sid ids (sk & raw & Hr & Hd) _ IH]; intros acc; simpl.
  - eauto.
  - rewrite Hr. simpl. rewrite Hd. simpl. apply IH.
Qed.

Lemma updates_forall {V : Type} (P : N -> V -> Prop) (Q : N -> Prop)
    (ids : list N) (kvs : list (N * V)) :
  (forall k v, P k v -> Q k) ->
  map fst kvs = ids -> Forall (fun kv => P kv.1 kv.2) kvs -> Forall Q ids.
Proof.
  intros HPQ <- Hall. induction Hall as [|[k v] kvs H0 _ IH]; simpl;
    constructor; [exact (HPQ k v H0) | exact IH].
Qed.

End Run.

(** X7.  A run completes only if, for every segment id, both mesh fetches
    returned and the skeleton fetch returned an array of a whole number of
    point pairs: a fetch that raises, or a skeleton array whose length is
    not a multiple of six, keeps the run from completing. *)
Theorem main_completes_only_if (cfg : config) (fetcher : API) (tr : s3_trace) :
  status_of (main cfg fetcher tr).1 = Completed ->
  forall sid,
    In sid (segment_ids cfg) ->
    mesh_fetch_ok fetcher sid
    /\ exists raw,
         fetch_proofread_skeleton fetcher sid = Ok raw
         /\ (length raw mod 6 = 0)%nat.
Proof.
  rewrite main_unfold. intros H.
  destruct (fetch_proofread_meshes fetcher (segment_ids cfg)) as [frags|e] eqn:Em;
    [|discriminate].
  destruct (fetch_proofread_skeletons fetcher (segment_ids cfg)) as [sks|e] eqn:Es;
    [|discriminate].
  apply fetch_meshes_loop_updates in Em. destruct Em as (kvs & Hk & Hall & _).
  apply fetch_skeletons_loop_updates in Es. destruct Es as (kvs' & Hk' & Hall' & _).
  assert (Hm : Forall (mesh_fetch_ok fetcher) (segment_ids cfg)).
  { apply (updates_forall (fetched_fragment fetcher) _ _ kvs); try assumption.
    intros k v (decim & proof & Hd & Hp & _). exists decim, proof. tauto. }
  assert (Hs : Forall (fun sid => exists raw,
                         fetch_proofread_skeleton fetcher sid = Ok raw
                         /\ (length raw mod 6 = 0)%nat) (segment_ids cfg)).
  { apply (updates_forall (fetched_skeleton fetcher) _ _ kvs'); try assumption.
    intros k [verts edges] (raw & Hr & Hd). exists raw. split; [exact Hr|].
    rewrite (dedup_skeleton_ok_length _ _ _ Hd), Nat.mul_comm.
    apply Nat.Div0.mod_mul. }
  rewrite List.Forall_forall in Hm, Hs.
  intros sid Hin. split; [apply Hm, Hin | apply Hs, Hin].
Qed.

Lemma main_completes_only_if_witness :
  mesh_fetch_ok (api_missing 30) 20
  /\ exists raw,
       fetch_proofread_skeleton (api_missing 30) 20 = Ok raw
       /\ (length raw mod 6 = 0)%nat.
Proof.
  apply (main_completes_only_if scenario_config (api_missing 30) []).
  - vm_compute. reflexivity.
  - simpl. tauto.
Defined.

Lemma upload_skeletons_loop_cloudpath (skeletons : dict skeleton)
    (skmgr : SkeletonManager) :
  cloudpath (upload_skeletons_loop skeletons skmgr) = cloudpath skmgr.
Proof.
  revert skmgr. induction skeletons as [|[k sk] rest IH]; intros skmgr;
    [reflexivity|].
  cbn [upload_skeletons_loop]. rewrite IH. reflexivity.
Qed.

(** X8.  The sources the session gets when it is built, as [main] builds
    it, from what the two uploads return: the mesh layer reads from
    [precomputed://s3://{bucket}/{base}/{dir}], the prefix the fragments were
    written under; the skeleton source layer gets the manager's source with
    the scheme put in front once more,
    [precomputed://precomputed://s3://{bucket}/{base}/skeletons]; and the
    manager's layer shows exactly the keys of the skeleton dictionary. *)
Theorem viewer_sources_from_uploads (fragments : dict (list byte))
    (skeletons : dict skeleton)
    (bucket base dir image_source seg_source mesh_name skel_name : string)
    (ids : list N) (dims : list Z) (tr : s3_trace) :
  let mesh_s3_url := (upload_meshes_to_s3 fragments bucket base dir tr).1 in
  let up := upload_skeletons skeletons
              (init_skeleton_manager seg_source bucket base) in
  let vs := build_viewer_link image_source seg_source mesh_s3_url (Some up.1)
              mesh_name ids dims (Some up.2) skel_name in
  source <$> layers vs !! 2%nat
  = Some ["precomputed://s3://" +:+ bucket +:+ "/" +:+ base +:+ "/" +:+ dir]
  /\ source <$> layers vs !! 3%nat
     = Some ["precomputed://precomputed://s3://" +:+ bucket +:+ "/" +:+ base
             +:+ "/skeletons"]
  /\ exists segs,
       segments <$> layers vs !! 4%nat = Some (Some segs)
       /\ forall sid, In sid segs <-> In sid (map fst skeletons).
Proof.
  cbv zeta. split; [reflexivity|]. split.
  - unfold build_viewer_link, upload_skeletons, skeleton_source.
    cbn [fst snd layers add_layer add_segmentation_layer add_image_layer app
         lookup list_lookup fmap option_fmap option_map source format_opt
         default].
    rewrite upload_skeletons_loop_cloudpath. reflexivity.
  - eexists. split; [reflexivity|].
    intros sid. rewrite upload_skeletons_ids.
    unfold uploaded_root_ids, init_skeleton_manager. cbn [uploaded].
    rewrite elements_empty. simpl. tauto.
Qed.

(** X9.  When the meshes were fetched and a skeleton fetch raises, the run
    ends with that exception after the fragments and the manifest were
    sent: the meshes are published although no session is built. *)
Theorem skeleton_failure_keeps_meshes (cfg : config) (fetcher : API)
    (tr : s3_trace) (frags : dict (list byte)) (e : exn) :
  fetch_proofread_meshes fetcher (segment_ids cfg) = Ok frags ->
  fetch_proofread_skeletons fetcher (segment_ids cfg) = Raise e ->
  main cfg fetcher tr
  = (Raise e,
     tr ++ map (fragment_put (cfg_bucket cfg) (s3_base_path cfg)
                  (default "mesh" (fragment_dir_name cfg))) frags
        ++ [info_put (cfg_bucket cfg) (s3_base_path cfg)
              (default "mesh" (fragment_dir_name cfg)) (mapping cfg)]).
Proof. intros Hm Hs. rewrite main_unfold, Hm, Hs. reflexivity. Qed.

Lemma skeleton_failure_keeps_meshes_witness :
  main scenario_config api_bad_skeleton []
  = (Raise ValueError,
     [] ++ map (fragment_put "bucket" "exp1" "mesh")
             [(10%N, to_precomputed (mkMesh [(0, 0, 0)]%N [] 10));
              (20%N, to_precomputed (mkMesh [(0, 0, 0)]%N [] 20))]
        ++ [info_put "bucket" "exp1" "mesh" ∅]).
Proof.
  exact (skeleton_failure_keeps_meshes scenario_config api_bad_skeleton [] _
           ValueError eq_refl eq_refl).
Defined.

Section RunStore.

Variable cfg : config.
Variable fetcher : API.

(** The requests a run sends do not depend on the trace it starts from. *)
Lemma main_appends :
  exists new,
    (forall tr, (main cfg fetcher tr).2 = tr ++ new)
    /\ Forall (fun req =>
                 Bucket req = cfg_bucket cfg
                 /\ String.prefix (s3_base_path cfg +:+ "/") (Key req) = true) new.
Proof.
  destruct (fetch_proofread_meshes fetcher (segment_ids cfg)) as [frags|e] eqn:Em.
  - exists (mesh_requests cfg frags). split.
    + intros tr. rewrite main_unfold, Em.
      destruct (fetch_proofread_skeletons fetcher (segment_ids cfg)); reflexivity.
    + unfold mesh_requests. apply Forall_app. split.
      * apply List.Forall_forall. intros req Hreq.
        apply in_map_iff in Hreq. destruct Hreq as (item & <- & _).
        split; [reflexivity|]. unfold fragment_put. simpl.
        rewrite <- (string_app_assoc (s3_base_path cfg) "/").
        apply string_prefix_app.
      * constructor; [|constructor]. split; [reflexivity|].
        unfold info_put. simpl.
        change (s3_base_path cfg +:+ "/info")
          with (s3_base_path cfg +:+ "/" +:+ "info").
        rewrite <- (string_app_assoc (s3_base_path cfg) "/").
        apply string_prefix_app.
  - exists []. split; [|constructor].
    intros tr. rewrite main_unfold, Em, app_nil_r. reflexivity.
Qed.

End RunStore.

(** X10.  Whatever its outcome, a run only appends to the requests sent
    before it, and every request it sends goes to the configured bucket
    under a key that starts with the configured base path and a slash. *)
Theorem main_writes_confined (cfg : config) (fetcher : API) (tr : s3_trace) :
  exists new,
    (main cfg fetcher tr).2 = tr ++ new
    /\ Forall (fun req =>
                 Bucket req = cfg_bucket cfg
                 /\ String.prefix (s3_base_path cfg +:+ "/") (Key req) = true) new.
Proof.
  destruct (main_appends cfg fetcher) as (new & Happ & Hall).
  exists new. split; [apply Happ | exact Hall].
Qed.

(** X11.  Publishing again: uploading the fragments and writing the
    manifest a second time leaves the store as the first time left it, and
    writing the manifest for another configuration replaces the stored
    manifest by the new one as a whole. *)
Theorem republish_overwrites (fragments : dict (list byte))
    (bucket base dir : string) (cfg cfg' : gmap string json)
    (m0 : gmap (string * string) (body * string)) :
  let publish := fun c tr =>
    write_info_file bucket base dir c
      (upload_meshes_to_s3 fragments bucket base dir tr).2 in
  s3_serve m0 (publish cfg (publish cfg [])) = s3_serve m0 (publish cfg [])
  /\ s3_serve m0 (publish cfg' (publish cfg [])) !! (bucket, base +:+ "/info")
     = Some (JsonText (make_info dir cfg'), "application/json").
Proof.
  cbv beta zeta.
  assert (Hp : forall c tr,
    write_info_file bucket base dir c
      (upload_meshes_to_s3 fragments bucket base dir tr).2
    = tr ++ map (fragment_put bucket base dir) fragments
         ++ [info_put bucket base dir c]).
  { intros c tr. unfold write_info_file, upload_meshes_to_s3, put_object.
    cbn [snd]. rewrite upload_fragments_trace, <- app_assoc. reflexivity. }
  rewrite !Hp, !app_nil_l. split.
  - rewrite s3_serve_app. apply s3_serve_twice.
  - rewrite !app_assoc, s3_serve_lookup, last_put_snoc.
    destruct (decide _) as [_ | Hne]; [reflexivity|].
    exfalso. apply Hne. reflexivity.
Qed.

(** X12.  From fetch to store: when the meshes of a list of ids were
    fetched, uploaded and the manifest written, the store holds for every
    requested id, under [{base}/{dir}/{id}:0], the fragment encoded from the
    mesh fetched for that id, whatever was sent or stored before. *)
Theorem fetched_fragments_stored (fetcher : API) (ids : list N)
    (frags : dict (list byte)) (bucket base dir : string)
    (cfg : gmap string json) (m0 : gmap (string * string) (body * string))
    (tr0 : s3_trace) :
  fetch_proofread_meshes fetcher ids = Ok frags ->
  let tr := write_info_file bucket base dir cfg
              (upload_meshes_to_s3 frags bucket base dir tr0).2 in
  forall sid,
    In sid ids ->
    exists frag,
      fetched_fragment fetcher sid frag
      /\ s3_serve m0 tr
           !! (bucket, base +:+ "/" +:+ dir +:+ "/" +:+ pretty sid +:+ ":0")
         = Some (RawBytes frag, "application/octet-stream").
Proof.
  intros Hf tr sid Hin.
  assert (Htr : tr = tr0 ++ map (fragment_put bucket base dir) frags
                     ++ [info_put bucket base dir cfg]).
  { unfold tr, write_info_file, upload_meshes_to_s3, put_object. cbn [snd].
    rewrite upload_fragments_trace, <- app_assoc. reflexivity. }
  apply fetch_meshes_loop_updates in Hf. destruct Hf as (kvs & Hk & Hall & ->).
  destruct (fetched_dict_facts (fetched_fragment fetcher) _ kvs Hk Hall)
    as (Hnd & _ & _ & Hget & _).
  destruct (serve_run_requests (dict_set_all kvs []) bucket base dir cfg
              m0 tr0 Hnd) as [Hfr _].
  destruct (Hget sid Hin) as (frag & Hd & Hfrag).
  exists frag. split; [exact Hfrag|].
  rewrite Htr. apply Hfr, dict_get_in, Hd.
Qed.

Lemma fetched_fragments_stored_witness :
  exists frag,
    fetched_fragment (api_missing 30) 10 frag
    /\ s3_serve ∅ (write_info_file "bucket" "exp1" "mesh" ∅
                     (upload_meshes_to_s3
                        [(10%N, to_precomputed
                                  (mkMesh [(0, 0, 0); (1, 0, 0); (0, 1, 0)]%N
                                          [(0, 1, 2)]%N 10));
                         (20%N, to_precomputed
                                  (mkMesh [(0, 0, 0); (1, 0, 0); (0, 1, 0)]%N
                                          [(0, 1, 2)]%N 20))]
                        "bucket" "exp1" "mesh" []).2)
         !! ("bucket", "exp1" +:+ "/" +:+ "mesh" +:+ "/" +:+ pretty 10%N +:+ ":0")
       = Some (RawBytes frag, "application/octet-stream").
Proof.
  apply (fetched_fragments_stored (api_missing 30) [10; 20; 10]%N _
           "bucket" "exp1" "mesh" ∅ ∅ [] eq_refl 10%N).
  simpl. tauto.
Defined.

(** ** The viewer session: optional parts *)

(** X13.  The skeleton manager only adds a fifth layer: the session has
    four layers without a manager and five with one, and the first four are
    the same either way.  The [proofread_skeletons_source] layer is added
    even when no skeleton source is given; its source is then the text
    [precomputed://None]. *)
Theorem viewer_optional_layers (image_source seg_source mesh_source
    mesh_name skel_name : string) (skel_source : option string)
    (ids : list N) (dims : list Z) (mgr : option SkeletonManager) :
  let build := build_viewer_link image_source seg_source mesh_source in
  let vs := build skel_source mesh_name ids dims mgr skel_name in
  length (layers vs) = match mgr with Some _ => 5%nat | None => 4%nat end
  /\ take 4 (layers vs)
     = layers (build skel_source mesh_name ids dims None skel_name)
  /\ map name (take 4 (layers vs))
     = ["EM_image"; "flat_seg"; mesh_name; "proofread_skeletons_source"]
  /\ source <$> layers (build None mesh_name ids dims mgr skel_name) !! 3%nat
     = Some ["precomputed://None"]
  /\ dimensions vs = dims.
Proof. destruct mgr; repeat split; reflexivity. Qed.

(** ** The encoding is injective *)

(** X14.  Two representable meshes with the same binary fragment have the
    same vertex and face arrays: the segment id is not part of the encoding
    and nothing else is lost. *)
Theorem to_precomputed_injective (m1 m2 : Mesh) :
  representable m1 -> representable m2 ->
  to_precomputed m1 = to_precomputed m2 ->
  vertices m1 = vertices m2 /\ faces m1 = faces m2.
Proof.
  intros H1 H2 Heq.
  pose proof (from_to_precomputed (mkMesh (vertices m1) (faces m1) 0) H1) as D1.
  pose proof (from_to_precomputed (mkMesh (vertices m2) (faces m2) 0) H2) as D2.
  change (to_precomputed (mkMesh (vertices m1) (faces m1) 0))
    with (to_precomputed m1) in D1.
  change (to_precomputed (mkMesh (vertices m2) (faces m2) 0))
    with (to_precomputed m2) in D2.
  cbn [segid] in D1, D2. rewrite Heq, D2 in D1.
  inversion D1. split; reflexivity.
Qed.

Lemma to_precomputed_injective_witness :
  vertices (mkMesh [(1, 2, 3)]%N [(0, 0, 0)]%N 10)
  = vertices (mkMesh [(1, 2, 3)]%N [(0, 0, 0)]%N 20)
  /\ faces (mkMesh [(1, 2, 3)]%N [(0, 0, 0)]%N 10)
     = faces (mkMesh [(1, 2, 3)]%N [(0, 0, 0)]%N 20).
Proof.
  apply (to_precomputed_injective (mkMesh [(1, 2, 3)]%N [(0, 0, 0)]%N 10)
           (mkMesh [(1, 2, 3)]%N [(0, 0, 0)]%N 20)).
  - split; [reflexivity|]. split; repeat constructor.
  - split; [reflexivity|]. split; repeat constructor.
  - reflexivity.
Defined.

(** ** The manifest and the configuration *)

(** X15.  The manifest reads four entries of the configuration and nothing
    else: two configurations that agree on [num_channels], [chunk_sizes],
    [resolution] and [size] give the same manifest and the same request. *)
Theorem manifest_reads_four_keys (cfg1 cfg2 : gmap string json)
    (bucket base dir : string) (tr : s3_trace) :
  cfg1 !! "num_channels" = cfg2 !! "num_channels" ->
  cfg1 !! "chunk_sizes" = cfg2 !! "chunk_sizes" ->
  cfg1 !! "resolution" = cfg2 !! "resolution" ->
  cfg1 !! "size" = cfg2 !! "size" ->
  make_info dir cfg1 = make_info dir cfg2
  /\ write_info_file bucket base dir cfg1 tr = write_info_file bucket base dir cfg2 tr.
Proof.
  intros Hn Hc Hr Hs.
  assert (E : make_info dir cfg1 = make_info dir cfg2).
  { unfold make_info, cfg_get. rewrite Hn, Hc, Hr, Hs. reflexivity. }
  split; [exact E|]. unfold write_info_file. rewrite E. reflexivity.
Qed.

Lemma manifest_reads_four_keys_witness :
  make_info "mesh" ∅ = make_info "mesh" (<["bucket" := JStr "b"]> ∅)
  /\ write_info_file "b" "exp1" "mesh" ∅ []
     = write_info_file "b" "exp1" "mesh" (<["bucket" := JStr "b"]> ∅) [].
Proof.
  apply (manifest_reads_four_keys ∅ (<["bucket" := JStr "b"]> ∅));
    vm_compute; reflexivity.
Defined.
